(** * The prioritized, importance-sampled replay buffer of [src/learn/utils.py]

    A shallow embedding of the class [PER_IS_ReplayBuffer]: the object is a
    record, its methods are computations in a state monad whose state is the
    object and whose outcomes are a value or a Python exception.  A raised
    exception keeps the writes made before it, as in Python.

    Numbers.  Priorities, exponents and weights are Python floats; they are
    modelled by the real numbers [R] (no rounding, no overflow), with the
    exceptions of Python's own floats: a division by zero and [0.0] raised to
    a negative power raise ZeroDivisionError (numpy scalars would give [inf]
    or [nan] and a warning instead).  The min tree also holds
    [float('inf')], so its entries are reals extended by [PInf].
    Capacities, sizes, cursors and slot indices are Python ints that the class
    only ever uses as non-negative numbers; they are modelled by [nat], so a
    negative slot index handed to [update_priorities] is outside the model.
    The numpy dtype casts of the stored columns (float32 rewards and weights,
    int32 actions and indexes) are not modelled, and a pushed observation is
    taken to be a vector of the width the buffer was built with (numpy would
    broadcast or raise ValueError on another width).

    Besides the prioritized buffer the file embeds, of the same source file,
    the plain [ReplayBuffer], the lines of [plot_end_state_matrix] and
    [plot_action_matrix] that build the image and the legend they plot, and
    the lines of [critical_states_tests] that build the samples it tests;
    and the enumeration [Basins] of [src/envs/AYS/Basins.py].  Calls into
    matplotlib and scipy are where these models stop. *)

From Stdlib Require Import Reals Lra Lia ZArith List.
From stdpp Require Import base list strings.

(** ** Python scalars *)

(** Outcomes that end a call.  [IndexError] and [ZeroDivisionError] are the
    Python exceptions.  The other three mark where the model stops following
    the interpreter: [ComplexResult] (a negative base raised to a fractional
    exponent evaluates to a complex number in Python 3), [NonFinite] (an
    infinite float enters the weight arithmetic) and [OutOfFuel] (a [while]
    loop outlives the iteration bound given to its model).  Lemma
    [methods_within_fuel] shows that [OutOfFuel] never occurs, and lemma
    [reachable_outcomes] that no call on a reachable object ends in any of
    the three. *)
Inductive exn : Set :=
  | IndexError
  | ZeroDivisionError
  | ComplexResult
  | NonFinite
  | OutOfFuel.

Inductive result (A : Type) : Type :=
  | Ok (a : A)
  | Raise (e : exn).
Arguments Ok {A} a.
Arguments Raise {A} e.

(** The value a call evaluates to when that value is the subject of a claim:
    [None] or an int. *)
Inductive pyvalue : Set :=
  | PyNone
  | PyInt (n : nat).

(** [x ** y] on floats: [x ** 0] is [1.0] for every [x]; a positive base gives
    [exp (y * ln x)]; [0.0 ** y] is [0.0] for positive [y] and raises
    ZeroDivisionError for negative [y]; a negative base gives a signed real for
    an integral exponent and a complex number otherwise. *)
Definition py_pow (x y : R) : result R :=
  if Req_dec_T y 0 then Ok 1%R
  else if Rlt_dec 0 x then Ok (Rpower x y)
  else if Req_dec_T x 0 then
    (if Rlt_dec y 0 then Raise ZeroDivisionError else Ok 0%R)
  else if Req_dec_T (frac_part y) 0 then
    Ok (if Z.even (Int_part y) then Rpower (- x) y else (- Rpower (- x) y)%R)
  else Raise ComplexResult.

(** [a / b] on floats. *)
Definition py_div (a b : R) : result R :=
  if Req_dec_T b 0 then Raise ZeroDivisionError else Ok (a / b)%R.

(** [a % b] on non-negative ints. *)
Definition py_mod (a b : nat) : result nat :=
  if decide (b = 0) then Raise ZeroDivisionError else Ok (a mod b).

(** [max(a, b)]: the first argument unless the second is larger. *)
Definition py_max (a b : R) : R := if Rlt_dec a b then b else a.

(** Entries of the min tree: a real or [float('inf')]. *)
Inductive xreal : Set :=
  | Fin (r : R)
  | PInf.

(** [min(a, b)]: the first argument unless the second is smaller. *)
Definition py_min (a b : xreal) : xreal :=
  match a, b with
  | Fin x, Fin y => if Rlt_dec y x then Fin y else Fin x
  | Fin x, PInf => Fin x
  | PInf, Fin y => Fin y
  | PInf, PInf => PInf
  end.

(** [m / s] where [m] is read from the min tree.  [inf / 0] raises like any
    division by zero; [inf / s] is an infinite float. *)
Definition xdiv (m : xreal) (s : R) : result R :=
  match m with
  | Fin a => py_div a s
  | PInf => if Req_dec_T s 0 then Raise ZeroDivisionError else Raise NonFinite
  end.

(** [l[i] = v] on a list or numpy array of fixed length. *)
Definition setitem {A : Type} (i : nat) (v : A) (l : list A) : result (list A) :=
  if decide (i < length l) then Ok (<[i:=v]> l) else Raise IndexError.

(** [l[i]]. *)
Definition getitem {A : Type} (l : list A) (i : nat) : result A :=
  match l !! i with
  | Some v => Ok v
  | None => Raise IndexError
  end.

(** ** The object *)

(** One pushed transition, as the five arguments of [push]. *)
Record transition : Type := Transition {
  t_obs : list R;
  t_action : Z;
  t_reward : R;
  t_next_obs : list R;
  t_done : bool
}.

(** [self.data]: five columns of [capacity] rows. *)
Record columns : Type := Columns {
  data_obs : list (list R);
  data_action : list Z;
  data_reward : list R;
  data_next_obs : list (list R);
  data_done : list bool
}.

Record buffer : Type := Buffer {
  capacity : nat;
  alpha : R;
  priority_sum : list R;
  priority_min : list xreal;
  max_priority : R;
  data : columns;
  next_idx : nat;
  size : nat
}.

Definition with_priority_sum (t : list R) (b : buffer) : buffer :=
  Buffer (capacity b) (alpha b) t (priority_min b) (max_priority b) (data b)
         (next_idx b) (size b).

Definition with_priority_min (t : list xreal) (b : buffer) : buffer :=
  Buffer (capacity b) (alpha b) (priority_sum b) t (max_priority b) (data b)
         (next_idx b) (size b).

Definition with_max_priority (p : R) (b : buffer) : buffer :=
  Buffer (capacity b) (alpha b) (priority_sum b) (priority_min b) p (data b)
         (next_idx b) (size b).

Definition with_data (d : columns) (b : buffer) : buffer :=
  Buffer (capacity b) (alpha b) (priority_sum b) (priority_min b)
         (max_priority b) d (next_idx b) (size b).

Definition with_next_idx (n : nat) (b : buffer) : buffer :=
  Buffer (capacity b) (alpha b) (priority_sum b) (priority_min b)
         (max_priority b) (data b) n (size b).

Definition with_size (n : nat) (b : buffer) : buffer :=
  Buffer (capacity b) (alpha b) (priority_sum b) (priority_min b)
         (max_priority b) (data b) (next_idx b) n.

(** [PER_IS_ReplayBuffer.__init__]. *)
Definition __init__ (capacity : nat) (alpha : R) (state_dim : nat) : buffer :=
  {| capacity := capacity;
     alpha := alpha;
     priority_sum := replicate (2 * capacity) 0%R;
     priority_min := replicate (2 * capacity) PInf;
     max_priority := 1%R;
     data := {| data_obs := replicate capacity (replicate state_dim 0%R);
                data_action := replicate capacity 0%Z;
                data_reward := replicate capacity 0%R;
                data_next_obs := replicate capacity (replicate state_dim 0%R);
                data_done := replicate capacity false |};
     next_idx := 0;
     size := 0 |}.

(** ** Method bodies as state-and-exception computations *)

Definition M (A : Type) : Type := buffer -> result A * buffer.

#[global] Instance M_ret : MRet M := fun A a s => (Ok a, s).

#[global] Instance M_bind : MBind M := fun A B f m s =>
  match m s with
  | (Ok a, s') => f a s'
  | (Raise e, s') => (Raise e, s')
  end.

Definition gets {A : Type} (f : buffer -> A) : M A := fun s => (Ok (f s), s).

Definition modify (f : buffer -> buffer) : M unit := fun s => (Ok tt, f s).

Definition lift {A : Type} (r : result A) : M A := fun s => (r, s).

(** Monadic map over a list, left to right: the [for] loops of [sample]. *)
Fixpoint for_each {A B : Type} (f : A -> M B) (l : list A) : M (list B) :=
  match l with
  | [] => mret []
  | a :: l' => b ← f a; bs ← for_each f l'; mret (b :: bs)
  end.

(** [self.priority_sum[i]] and [self.priority_sum[i] = v]. *)
Definition sum_at (i : nat) : M R :=
  t ← gets priority_sum; lift (getitem t i).

Definition store_sum (i : nat) (v : R) : M unit :=
  t ← gets priority_sum; t' ← lift (setitem i v t); modify (with_priority_sum t').

(** [self.priority_min[i]] and [self.priority_min[i] = v]. *)
Definition min_at (i : nat) : M xreal :=
  t ← gets priority_min; lift (getitem t i).

Definition store_min (i : nat) (v : xreal) : M unit :=
  t ← gets priority_min; t' ← lift (setitem i v t); modify (with_priority_min t').

(** The [while idx >= 2] loop of [_set_priority_min].  The loop halves [idx]
    at every turn, so [fuel = idx] turns are enough. *)
Fixpoint min_walk (fuel idx : nat) : M unit :=
  if decide (2 <= idx) then
    match fuel with
    | O => lift (Raise OutOfFuel)
    | S fuel' =>
        let idx := idx / 2 in
        l ← min_at (2 * idx);
        r ← min_at (2 * idx + 1);
        store_min idx (py_min l r);;
        min_walk fuel' idx
    end
  else mret tt.

Definition _set_priority_min (idx : nat) (priority_alpha : R) : M unit :=
  c ← gets capacity;
  let idx := idx + c in
  store_min idx (Fin priority_alpha);;
  min_walk idx idx.

(** The [while idx >= 2] loop of [_set_priority_sum]. *)
Fixpoint sum_walk (fuel idx : nat) : M unit :=
  if decide (2 <= idx) then
    match fuel with
    | O => lift (Raise OutOfFuel)
    | S fuel' =>
        let idx := idx / 2 in
        l ← sum_at (2 * idx);
        r ← sum_at (2 * idx + 1);
        store_sum idx (l + r)%R;;
        sum_walk fuel' idx
    end
  else mret tt.

Definition _set_priority_sum (idx : nat) (priority_alpha : R) : M unit :=
  c ← gets capacity;
  let idx := idx + c in
  store_sum idx priority_alpha;;
  sum_walk idx idx.

Definition _sum : M R := sum_at 1.

Definition _min : M xreal := min_at 1.

(** [self.data[k][idx] = v] for the five columns, in the order of [push]. *)
Definition store_obs (idx : nat) (v : list R) : M unit :=
  d ← gets data;
  col ← lift (setitem idx v (data_obs d));
  modify (with_data (Columns col (data_action d) (data_reward d)
                             (data_next_obs d) (data_done d))).

Definition store_action (idx : nat) (v : Z) : M unit :=
  d ← gets data;
  col ← lift (setitem idx v (data_action d));
  modify (with_data (Columns (data_obs d) col (data_reward d)
                             (data_next_obs d) (data_done d))).

Definition store_reward (idx : nat) (v : R) : M unit :=
  d ← gets data;
  col ← lift (setitem idx v (data_reward d));
  modify (with_data (Columns (data_obs d) (data_action d) col
                             (data_next_obs d) (data_done d))).

Definition store_next_obs (idx : nat) (v : list R) : M unit :=
  d ← gets data;
  col ← lift (setitem idx v (data_next_obs d));
  modify (with_data (Columns (data_obs d) (data_action d) (data_reward d)
                             col (data_done d))).

Definition store_done (idx : nat) (v : bool) : M unit :=
  d ← gets data;
  col ← lift (setitem idx v (data_done d));
  modify (with_data (Columns (data_obs d) (data_action d) (data_reward d)
                             (data_next_obs d) col)).

(** [push].  The body has no [return] statement: the call evaluates to
    [None]. *)
Definition push (t : transition) : M pyvalue :=
  idx ← gets next_idx;
  store_obs idx (t_obs t);;
  store_action idx (t_action t);;
  store_reward idx (t_reward t);;
  store_next_obs idx (t_next_obs t);;
  store_done idx (t_done t);;
  c ← gets capacity;
  n ← lift (py_mod (idx + 1) c);
  modify (with_next_idx n);;
  c ← gets capacity;
  sz ← gets size;
  modify (with_size (Nat.min c (sz + 1)));;
  mp ← gets max_priority;
  a ← gets alpha;
  priority_alpha ← lift (py_pow mp a);
  _set_priority_min idx priority_alpha;;
  _set_priority_sum idx priority_alpha;;
  mret PyNone.

(** The [while idx < self.capacity] loop of [find_prefix_sum_idx].  [idx]
    at least doubles at every turn, so [fuel = capacity] turns are enough
    from [idx = 1].  Next to the final [idx] the loop reports, in order, the
    positions of [priority_sum] it has read. *)
Fixpoint find_loop (fuel idx : nat) (prefix_sum : R) (reads : list nat)
  : M (nat * list nat) :=
  c ← gets capacity;
  if decide (idx < c) then
    match fuel with
    | O => lift (Raise OutOfFuel)
    | S fuel' =>
        l ← sum_at (idx * 2);
        if Rgt_dec l prefix_sum then
          find_loop fuel' (2 * idx) prefix_sum (reads ++ [idx * 2])
        else
          l' ← sum_at (idx * 2);
          find_loop fuel' (2 * idx + 1) (prefix_sum - l')%R
                    (reads ++ [idx * 2; idx * 2])
    end
  else mret (idx, reads).

Definition find_prefix_sum_trace (prefix_sum : R) : M (nat * list nat) :=
  c ← gets capacity;
  find_loop c 1 prefix_sum [].

Definition find_prefix_sum_idx (prefix_sum : R) : M nat :=
  r ← find_prefix_sum_trace prefix_sum;
  c ← gets capacity;
  mret (fst r - c).

(** What [sample] returns: the dict [samples]. *)
Record samples : Type := Samples {
  weights : list R;
  indexes : list nat;
  s_obs : list (list R);
  s_action : list Z;
  s_reward : list R;
  s_next_obs : list (list R);
  s_done : list bool
}.

(** [sample].  [random i] is the value of the [i]-th call of
    [random.random()], a float in [[0, 1)]. *)
Definition sample (batch_size : nat) (beta : R) (random : nat -> R) : M samples :=
  idxs ← for_each (fun i =>
            s ← _sum;
            let p := (random i * s)%R in
            find_prefix_sum_idx p) (seq 0 batch_size);
  m ← _min;
  s ← _sum;
  prob_min ← lift (xdiv m s);
  sz ← gets size;
  max_weight ← lift (py_pow (prob_min * INR sz) (- beta));
  ws ← for_each (fun idx =>
            c ← gets capacity;
            leaf ← sum_at (idx + c);
            s ← _sum;
            prob ← lift (py_div leaf s);
            sz ← gets size;
            weight ← lift (py_pow (prob * INR sz) (- beta));
            lift (py_div weight max_weight)) idxs;
  d ← gets data;
  c_obs ← for_each (fun i => lift (getitem (data_obs d) i)) idxs;
  c_action ← for_each (fun i => lift (getitem (data_action d) i)) idxs;
  c_reward ← for_each (fun i => lift (getitem (data_reward d) i)) idxs;
  c_next_obs ← for_each (fun i => lift (getitem (data_next_obs d) i)) idxs;
  c_done ← for_each (fun i => lift (getitem (data_done d) i)) idxs;
  mret (Samples ws idxs c_obs c_action c_reward c_next_obs c_done).

(** The loop of [update_priorities] over [zip(indexes, priorities)]. *)
Fixpoint update_loop (pairs : list (nat * R)) : M unit :=
  match pairs with
  | [] => mret tt
  | (idx, priority) :: rest =>
      mp ← gets max_priority;
      modify (with_max_priority (py_max mp priority));;
      a ← gets alpha;
      priority_alpha ← lift (py_pow priority a);
      _set_priority_min idx priority_alpha;;
      _set_priority_sum idx priority_alpha;;
      update_loop rest
  end.

Definition update_priorities (indexes : list nat) (priorities : list R) : M unit :=
  update_loop (zip indexes priorities).

Definition is_full : M bool :=
  c ← gets capacity; sz ← gets size; mret (bool_decide (c = sz)).

Definition __len__ : M nat := gets size.

(** ** Calls and the states they reach *)

Inductive call : Type :=
  | Push (t : transition)
  | Sample (batch_size : nat) (beta : R) (random : nat -> R)
  | UpdatePriorities (indexes : list nat) (priorities : list R).

(** The object after a call, whether the call returned or raised. *)
Definition run_call (c : call) (s : buffer) : buffer :=
  match c with
  | Push t => snd (push t s)
  | Sample batch_size beta random => snd (sample batch_size beta random s)
  | UpdatePriorities indexes priorities =>
      snd (update_priorities indexes priorities s)
  end.

Definition run_all (calls : list call) (s : buffer) : buffer :=
  fold_left (fun s c => run_call c s) calls s.

(** The caller contract of [update_priorities]: slot indices below the
    capacity, priorities not negative. *)
Definition valid_call (cap : nat) (c : call) : Prop :=
  match c with
  | UpdatePriorities indexes priorities =>
      Forall (fun i => i < cap) indexes /\ Forall (fun p => (0 <= p)%R) priorities
  | _ => True
  end.

Inductive reachable : buffer -> Prop :=
  | reach_init cap a state_dim : reachable (__init__ cap a state_dim)
  | reach_call s c :
      reachable s -> valid_call (capacity s) c -> reachable (run_call c s).

(** ** Vocabulary of the statements *)

(** Node [n] of an array-backed tree is the combination of its two children. *)
Definition node_ok {V : Type} (op : V -> V -> V) (t : list V) (n : nat) : Prop :=
  exists v l r,
    t !! n = Some v /\ t !! (2 * n) = Some l /\ t !! (2 * n + 1) = Some r /\
    v = op l r.

(** The tree invariant of the class: every internal node [1 <= n < capacity]
    of the sum tree is the sum, and of the min tree the minimum, of its
    children. *)
Definition tree_invariant (s : buffer) : Prop :=
  forall n, 1 <= n < capacity s ->
    node_ok Rplus (priority_sum s) n /\ node_ok py_min (priority_min s) n.

(** The arrays have the lengths [__init__] gave them. *)
Definition shape (s : buffer) : Prop :=
  length (priority_sum s) = 2 * capacity s /\
  length (priority_min s) = 2 * capacity s /\
  length (data_obs (data s)) = capacity s /\
  length (data_action (data s)) = capacity s /\
  length (data_reward (data s)) = capacity s /\
  length (data_next_obs (data s)) = capacity s /\
  length (data_done (data s)) = capacity s.

Definition Rsum (l : list R) : R := foldr Rplus 0%R l.

(** The leaf values of the sum tree in slot order, and their cumulative sum
    over the slots [[0, i)]. *)
Definition leaves (s : buffer) : list R := drop (capacity s) (priority_sum s).

Definition cum (s : buffer) (i : nat) : R := Rsum (take i (leaves s)).

(** The sum of the [n] entries of an array from position [a] on. *)
Definition range_sum (t : list R) (a n : nat) : R := Rsum (take n (drop a t)).

(** The transition stored in row [i] of the five columns. *)
Definition row (d : columns) (i : nat) : option transition :=
  o ← data_obs d !! i;
  a ← data_action d !! i;
  r ← data_reward d !! i;
  n ← data_next_obs d !! i;
  e ← data_done d !! i;
  Some (Transition o a r n e).

(** Every state a computation can end in is related to the state it
    started from. *)
Definition respects {A : Type} (P : buffer -> buffer -> Prop) (m : M A) : Prop :=
  forall s, P s (snd (m s)).




(** A computation never ends by exhausting the iteration bound of a loop. *)
Definition within_fuel {A : Type} (m : M A) : Prop :=
  forall s, fst (m s) <> Raise OutOfFuel.

Definition nondecreasing_max (s s' : buffer) : Prop :=
  (max_priority s <= max_priority s')%R.

Definition same_params (s s' : buffer) : Prop :=
  capacity s' = capacity s /\ alpha s' = alpha s.

(** The order of the min tree's entries, [PInf] on top. *)
Definition xle (a b : xreal) : Prop :=
  match a, b with
  | Fin x, Fin y => (x <= y)%R
  | _, PInf => True
  | PInf, Fin _ => False
  end.

(** ** The effect of the upward walk on one array

    [reduce_walk] is what the [while idx >= 2] loop does to the array it
    works on, for either tree; [tree_set] adds the leaf write before it. *)
Fixpoint reduce_walk {V : Type} (op : V -> V -> V) (fuel idx : nat) (t : list V)
  : list V :=
  if decide (2 <= idx) then
    match fuel with
    | O => t
    | S fuel' =>
        let i := idx / 2 in
        match t !! (2 * i), t !! (2 * i + 1) with
        | Some l, Some r => reduce_walk op fuel' i (<[i := op l r]> t)
        | _, _ => t
        end
    end
  else t.

Definition tree_set {V : Type} (op : V -> V -> V) (cap idx : nat) (v : V)
  (t : list V) : list V :=
  reduce_walk op (idx + cap) (idx + cap) (<[idx + cap := v]> t).

(** The columns after [push] has written row [idx]. *)
Definition put_row (idx : nat) (t : transition) (d : columns) : columns :=
  Columns (<[idx := t_obs t]> (data_obs d))
          (<[idx := t_action t]> (data_action d))
          (<[idx := t_reward t]> (data_reward d))
          (<[idx := t_next_obs t]> (data_next_obs d))
          (<[idx := t_done t]> (data_done d)).

(** A slot of the priority index: never written (zero mass, [inf] in the
    min tree) or holding the same non-negative value in both trees, which is
    [1] when [alpha] is [0]. *)
Definition slot_ok (s : buffer) (i : nat) : Prop :=
  (priority_sum s !! (i + capacity s) = Some 0%R /\
   priority_min s !! (i + capacity s) = Some PInf) \/
  (exists v, (0 <= v)%R /\ (alpha s = 0%R -> v = 1%R) /\
     priority_sum s !! (i + capacity s) = Some v /\
     priority_min s !! (i + capacity s) = Some (Fin v)).

(** Slot [i] holds [1] in both trees. *)
Definition slot_is_one (s : buffer) (i : nat) : Prop :=
  priority_sum s !! (i + capacity s) = Some 1%R /\
  priority_min s !! (i + capacity s) = Some (Fin 1).

Definition slot_written (s : buffer) (i : nat) : Prop :=
  exists v, priority_min s !! (i + capacity s) = Some (Fin v).

(** What holds of every reachable state. *)
Record good (s : buffer) : Prop := Good {
  good_shape : shape s;
  good_tree : tree_invariant s;
  good_cursor : capacity s = 0 \/ next_idx s < capacity s;
  good_size : size s <= capacity s;
  good_max : (1 <= max_priority s)%R;
  good_nonneg : Forall (fun v => (0 <= v)%R) (priority_sum s);
  good_min_nonneg : Forall (fun x => xle (Fin 0) x) (priority_min s);
  good_slots : forall i, i < capacity s -> slot_ok s i;
  good_empty : size s = 0 -> next_idx s = 0;
  good_first : 1 <= size s -> slot_written s 0
}.

Definition is_pow2 (n : nat) : Prop := exists d, n = 2 ^ d.

(** ** Vocabulary of the further properties *)




(** What [update_priorities] leaves alone. *)
Definition untouched (s s' : buffer) : Prop :=
  capacity s' = capacity s /\ alpha s' = alpha s /\ data s' = data s /\
  next_idx s' = next_idx s /\ size s' = size s.


(** The computation of one weight in [sample]. *)
Definition weight_of (s : buffer) (beta max_weight : R) (j : nat) (w : R) : Prop :=
  exists leaf total prob weight,
    priority_sum s !! (j + capacity s) = Some leaf /\
    priority_sum s !! 1 = Some total /\
    py_div leaf total = Ok prob /\
    py_pow (prob * INR (size s)) (- beta) = Ok weight /\
    py_div weight max_weight = Ok w.

(** The transition in position [k] of the columns [sample] returns. *)
Definition sampled_row (r : samples) (k : nat) : option transition :=
  row (Columns (s_obs r) (s_action r) (s_reward r) (s_next_obs r) (s_done r)) k.

(** ** The plain replay buffer [ReplayBuffer]

    The uniform buffer of the same file: a Python list used as a ring.
    [push] stores the tuple of its five arguments; the tuple is modelled by
    the record [transition], and the arrays in it by their values (the list
    holds references, so a caller that mutates a pushed array afterwards is
    outside the model). *)

(** The exceptions of the code outside the prioritized buffer: ValueError
    ([random.sample] on too small a population, the unpacking of an empty
    [zip], [np.stack] on arrays of different shapes, an impossible
    [reshape], [np.argmax] of an empty array), TypeError ([zip] on a [None]
    entry), KeyError (a dict without the key) and those of the prioritized
    buffer. *)
Inductive error : Set :=
  | ValueError
  | TypeError
  | KeyError
  | Builtin (e : exn).

Inductive outcome (A : Type) : Type :=
  | Returns (a : A)
  | Fails (e : error).
Arguments Returns {A} a.
Arguments Fails {A} e.

(** [random.sample(population, k)]: ValueError when [k] exceeds the size of
    the population, else the members at [k] distinct positions.  [picks]
    lists the positions the generator draws; [drawn] says what the generator
    guarantees of them (a position outside the population, which it never
    draws, is passed over). *)
Definition random_sample {A : Type} (picks : list nat) (population : list A)
  (k : nat) : outcome (list A) :=
  if decide (k <= length population)
  then Returns (omap (fun i => population !! i) (take k picks))
  else Fails ValueError.

Definition drawn (n k : nat) (picks : list nat) : Prop :=
  length picks = k /\ NoDup picks /\ Forall (fun i => i < n) picks.

(** [np.stack] on a sequence of vectors: ValueError on an empty sequence and
    on vectors of different lengths. *)
Definition np_stack (rows : list (list R)) : outcome (list (list R)) :=
  match rows with
  | [] => Fails ValueError
  | r :: rest =>
      if forallb (fun x => length x =? length r) rest
      then Returns rows else Fails ValueError
  end.

(** The entries of a batch when none of them is [None]. *)
Fixpoint all_some {A : Type} (l : list (option A)) : option (list A) :=
  match l with
  | [] => Some []
  | None :: _ => None
  | Some x :: rest =>
      match all_some rest with
      | Some xs => Some (x :: xs)
      | None => None
      end
  end.

(** [[l[i] for i in idxs]]. *)
Fixpoint getitems {A : Type} (l : list A) (idxs : list nat) : result (list A) :=
  match idxs with
  | [] => Ok []
  | i :: rest =>
      match getitem l i with
      | Raise e => Raise e
      | Ok x =>
          match getitems l rest with
          | Raise e => Raise e
          | Ok xs => Ok (x :: xs)
          end
      end
  end.

(** [state, action, reward, next_state, done = map(np.stack, zip( *batch))]:
    [zip] raises TypeError on an entry that is [None]; on an empty batch it
    yields nothing and the unpacking raises ValueError; the columns of
    scalars always stack. *)
Definition stack_batch (batch : list (option transition)) : outcome columns :=
  match all_some batch with
  | None => Fails TypeError
  | Some [] => Fails ValueError
  | Some ts =>
      match np_stack (map t_obs ts) with
      | Fails e => Fails e
      | Returns state =>
          match np_stack (map t_next_obs ts) with
          | Fails e => Fails e
          | Returns next_state =>
              Returns (Columns state (map t_action ts) (map t_reward ts)
                               next_state (map t_done ts))
          end
      end
  end.

Module ReplayBuffer.

Record t : Type := Make {
  capacity : nat;
  buffer : list (option transition);
  position : nat
}.

Definition __init__ (capacity : nat) : t := Make capacity [] 0.

(** [push]: the object afterwards and [None], or the exception raised and
    the object as the statements before it left it. *)
Definition push (x : transition) (s : t) : result pyvalue * t :=
  let s :=
    if decide (length (buffer s) < capacity s)
    then Make (capacity s) (buffer s ++ [None]) (position s)
    else s in
  match setitem (position s) (Some x) (buffer s) with
  | Raise e => (Raise e, s)
  | Ok b =>
      let s := Make (capacity s) b (position s) in
      match py_mod (position s + 1) (capacity s) with
      | Raise e => (Raise e, s)
      | Ok p => (Ok PyNone, Make (capacity s) (buffer s) p)
      end
  end.

Definition sample (picks : list nat) (batch_size : nat) (s : t)
  : outcome columns :=
  match random_sample picks (buffer s) batch_size with
  | Fails e => Fails e
  | Returns batch => stack_batch batch
  end.

Definition sample_with_indices (picks : list nat) (batch_size : nat) (s : t)
  : outcome (list (list R) * list nat) :=
  match random_sample picks (seq 0 (length (buffer s))) batch_size with
  | Fails e => Fails e
  | Returns indices =>
      match getitems (buffer s) indices with
      | Raise e => Fails (Builtin e)
      | Ok batch =>
          match stack_batch batch with
          | Fails e => Fails e
          | Returns cols => Returns (data_obs cols, indices)
          end
      end
  end.

Definition __len__ (s : t) : nat := length (buffer s).

(** The object after a sequence of [push] calls, returning or raising. *)
Definition push_all (xs : list transition) (s : t) : t :=
  fold_left (fun s x => snd (push x s)) xs s.

End ReplayBuffer.

(** ** The outcome matrices

    [plot_end_state_matrix] and [plot_action_matrix] turn a flat numpy array
    of codes into a square image of colours and hand it, with the patches of
    a legend, to matplotlib.  The model follows them up to the calls into
    matplotlib: it gives the image passed to [plt.imshow] and the patches
    passed to [plt.legend].  [int(np.sqrt(n))] is the integer square
    root. *)

(** An RGBA colour, as the list of its four components. *)
Definition colour : Type := list R.

(** [d[k]] on a dict with numeric keys, given by its items in insertion
    order. *)
Fixpoint dict_get {V : Type} (d : list (R * V)) (k : R) : outcome V :=
  match d with
  | [] => Fails KeyError
  | (k', v) :: rest => if Req_dec_T k k' then Returns v else dict_get rest k
  end.

(** [[f(a) for a in l]], [f] raising or returning. *)
Fixpoint traverse {A B : Type} (f : A -> outcome B) (l : list A)
  : outcome (list B) :=
  match l with
  | [] => Returns []
  | a :: rest =>
      match f a with
      | Fails e => Fails e
      | Returns b =>
          match traverse f rest with
          | Fails e => Fails e
          | Returns bs => Returns (b :: bs)
          end
      end
  end.

(** The rows of [a.reshape(rows, cols)]. *)
Fixpoint rows_of (rows cols : nat) (a : list R) : list (list R) :=
  match rows with
  | O => []
  | S n => take cols a :: rows_of n cols (drop cols a)
  end.

(** [a.reshape(size, size)]: ValueError unless [a] has [size * size]
    entries. *)
Definition reshape (size : nat) (a : list R) : outcome (list (list R)) :=
  if decide (size * size = length a) then Returns (rows_of size size a)
  else Fails ValueError.

(** What the two functions hand to matplotlib. *)
Record figure : Type := Figure {
  arrayShow : list (list colour);
  patches : list (colour * string)
}.

(** The lines that build [arrayShow] and [patches], the same in both
    functions. *)
Definition colour_figure (cmap : list (R * colour)) (labels : list (R * string))
  (size : nat) (results : list R) : outcome figure :=
  match reshape size results with
  | Fails e => Fails e
  | Returns rows =>
      match traverse (traverse (dict_get cmap)) rows with
      | Fails e => Fails e
      | Returns img =>
          match traverse (fun i =>
                   match dict_get cmap i with
                   | Fails e => Fails e
                   | Returns c =>
                       match dict_get labels i with
                       | Fails e => Fails e
                       | Returns l => Returns (c, l)
                       end
                   end) cmap.*1 with
          | Fails e => Fails e
          | Returns ps => Returns (Figure img ps)
          end
      end
  end.

Definition end_state_cmap : list (R * colour) :=
  [(1, [0; 0; 0; 1]); (2, [0; 1; 0; 1]); (3, [1; 1 / 10; 1 / 10; 1]);
   (4, [1; 1; 0; 1])]%R.

Definition end_state_labels : list (R * string) :=
  [(1%R, "$Black_{FP}$"); (2%R, "$Green_{FP}$"); (3%R, "$A_{PB}$");
   (4%R, "$Y_{SF}$")].

(** [plot_end_state_matrix]: what is handed to matplotlib, or the
    exception raised, and the caller's array [results] after the call,
    which has overwritten its zeros in place. *)
Definition plot_end_state_matrix (results : list R)
  : outcome figure * list R :=
  let size := Nat.sqrt (length results) in
  let results := map (fun x => if Req_dec_T x 0 then 4%R else x) results in
  (colour_figure end_state_cmap end_state_labels size results, results).




(** The enumeration [Basins] of [src/envs/AYS/Basins.py]. *)
Module Basins.

Inductive t : Set :=
  | OUT_PB
  | BLACK_FP
  | GREEN_FP
  | A_PB
  | Y_SF
  | S_PB
  | OUT_OF_TIME.

Definition value (b : t) : Z :=
  match b with
  | OUT_PB => 0
  | BLACK_FP => 1
  | GREEN_FP => 2
  | A_PB => 3
  | Y_SF => 4
  | S_PB => 5
  | OUT_OF_TIME => 6
  end.


End Basins.

(** ** The samples of [critical_states_tests]

    [critical_states_tests] groups the Q-differences by the name of the
    action taken and hands the groups to [scipy.stats.f_oneway], and the
    group of the action of the largest Q-difference, with the overall mean,
    to [scipy.stats.ttest_1samp].  The model follows it up to these two
    calls: it gives their arguments. *)








(** * Proofs *)

(** ** Arithmetic of tree positions *)

#[global] Arguments Nat.div : simpl never.
#[global] Arguments Nat.modulo : simpl never.
#[global] Arguments Nat.mul : simpl never.
#[global] Arguments Nat.pow : simpl never.

Lemma half_bounds (idx : nat) : 2 * (idx / 2) <= idx <= 2 * (idx / 2) + 1.
Proof.
  pose proof (Nat.div_mod_eq idx 2) as E.
  pose proof (Nat.mod_upper_bound idx 2) as U.
  lia.
Qed.

(** ** Running computations *)

Lemma bind_ok {A B : Type} (m : M A) (f : A -> M B) s a s' :
  m s = (Ok a, s') -> (m ≫= f) s = f a s'.
Proof. intros H. unfold mbind, M_bind. rewrite H. reflexivity. Qed.

Lemma with_priority_sum_same s : with_priority_sum (priority_sum s) s = s.
Proof. destruct s; reflexivity. Qed.

Lemma with_priority_min_same s : with_priority_min (priority_min s) s = s.
Proof. destruct s; reflexivity. Qed.

Lemma getitem_ok {A : Type} (l : list A) i v : l !! i = Some v -> getitem l i = Ok v.
Proof. intros H. unfold getitem. rewrite H. reflexivity. Qed.

Lemma setitem_ok {A : Type} (l : list A) i (v : A) :
  i < length l -> setitem i v l = Ok (<[i:=v]> l).
Proof. intros H. unfold setitem. rewrite decide_True by assumption. reflexivity. Qed.

Lemma sum_at_eq i s : sum_at i s = (getitem (priority_sum s) i, s).
Proof. reflexivity. Qed.

Lemma min_at_eq i s : min_at i s = (getitem (priority_min s) i, s).
Proof. reflexivity. Qed.

Lemma store_sum_ok i v s :
  i < length (priority_sum s) ->
  store_sum i v s = (Ok tt, with_priority_sum (<[i:=v]> (priority_sum s)) s).
Proof.
  intros H. unfold store_sum, mbind, M_bind, gets, lift, modify.
  rewrite setitem_ok by assumption. reflexivity.
Qed.

Lemma store_min_ok i v s :
  i < length (priority_min s) ->
  store_min i v s = (Ok tt, with_priority_min (<[i:=v]> (priority_min s)) s).
Proof.
  intros H. unfold store_min, mbind, M_bind, gets, lift, modify.
  rewrite setitem_ok by assumption. reflexivity.
Qed.

(** The loops of [_set_priority_sum] and [_set_priority_min] never raise on
    arrays of even length, never run out of fuel, and change their array the
    way [reduce_walk] says. *)
Lemma sum_walk_eval fuel : forall idx s c,
  length (priority_sum s) = 2 * c -> idx < 2 * c -> idx <= fuel ->
  sum_walk fuel idx s
  = (Ok tt, with_priority_sum (reduce_walk Rplus fuel idx (priority_sum s)) s).
Proof.
  induction fuel as [|fuel IH]; intros idx s c Hlen Hidx Hfuel;
    cbn [sum_walk min_walk reduce_walk].
  - rewrite !decide_False by lia. rewrite with_priority_sum_same. reflexivity.
  - destruct (decide (2 <= idx)) as [H2|H2];
      [|rewrite with_priority_sum_same; reflexivity].
    pose proof (half_bounds idx) as Hh.
    destruct (lookup_lt_is_Some_2 (priority_sum s) (2 * (idx / 2))) as [l Hl];
      [lia|].
    destruct (lookup_lt_is_Some_2 (priority_sum s) (2 * (idx / 2) + 1)) as [r Hr];
      [lia|].
    rewrite Hl, Hr.
    erewrite bind_ok; [|rewrite sum_at_eq, (getitem_ok _ _ _ Hl); reflexivity].
    erewrite bind_ok; [|rewrite sum_at_eq, (getitem_ok _ _ _ Hr); reflexivity].
    erewrite bind_ok; [|apply store_sum_ok; lia].
    rewrite (IH _ _ c); simpl; rewrite ?length_insert; try lia.
    reflexivity.
Qed.

Lemma min_walk_eval fuel : forall idx s c,
  length (priority_min s) = 2 * c -> idx < 2 * c -> idx <= fuel ->
  min_walk fuel idx s
  = (Ok tt, with_priority_min (reduce_walk py_min fuel idx (priority_min s)) s).
Proof.
  induction fuel as [|fuel IH]; intros idx s c Hlen Hidx Hfuel;
    cbn [sum_walk min_walk reduce_walk].
  - rewrite !decide_False by lia. rewrite with_priority_min_same. reflexivity.
  - destruct (decide (2 <= idx)) as [H2|H2];
      [|rewrite with_priority_min_same; reflexivity].
    pose proof (half_bounds idx) as Hh.
    destruct (lookup_lt_is_Some_2 (priority_min s) (2 * (idx / 2))) as [l Hl];
      [lia|].
    destruct (lookup_lt_is_Some_2 (priority_min s) (2 * (idx / 2) + 1)) as [r Hr];
      [lia|].
    rewrite Hl, Hr.
    erewrite bind_ok; [|rewrite min_at_eq, (getitem_ok _ _ _ Hl); reflexivity].
    erewrite bind_ok; [|rewrite min_at_eq, (getitem_ok _ _ _ Hr); reflexivity].
    erewrite bind_ok; [|apply store_min_ok; lia].
    rewrite (IH _ _ c); simpl; rewrite ?length_insert; try lia.
    reflexivity.
Qed.

Lemma _set_priority_sum_eval idx v s :
  length (priority_sum s) = 2 * capacity s -> idx < capacity s ->
  _set_priority_sum idx v s
  = (Ok tt, with_priority_sum
              (tree_set Rplus (capacity s) idx v (priority_sum s)) s).
Proof.
  intros Hlen Hidx. unfold _set_priority_sum, tree_set.
  erewrite bind_ok; [|reflexivity].
  erewrite bind_ok; [|apply store_sum_ok; lia].
  rewrite (sum_walk_eval _ _ _ (capacity s)); simpl;
    rewrite ?length_insert; try lia.
  reflexivity.
Qed.

Lemma _set_priority_min_eval idx v s :
  length (priority_min s) = 2 * capacity s -> idx < capacity s ->
  _set_priority_min idx v s
  = (Ok tt, with_priority_min
              (tree_set py_min (capacity s) idx (Fin v) (priority_min s)) s).
Proof.
  intros Hlen Hidx. unfold _set_priority_min, tree_set.
  erewrite bind_ok; [|reflexivity].
  erewrite bind_ok; [|apply store_min_ok; lia].
  rewrite (min_walk_eval _ _ _ (capacity s)); simpl;
    rewrite ?length_insert; try lia.
  reflexivity.
Qed.

(** ** The upward walk on one array *)

Section Reduce.
Context {V : Type} (op : V -> V -> V).

Lemma reduce_walk_length fuel : forall idx (t : list V),
  length (reduce_walk op fuel idx t) = length t.
Proof.
  induction fuel as [|fuel IH]; intros idx t; cbn [reduce_walk];
    destruct (decide (2 <= idx)) as [H2|H2]; try reflexivity.
  destruct (t !! (2 * (idx / 2))); [|reflexivity].
  destruct (t !! (2 * (idx / 2) + 1)); [|reflexivity].
  rewrite IH, length_insert. reflexivity.
Qed.

(** The walk writes only at [idx / 2] and above it in the tree. *)
Lemma reduce_walk_lookup_above fuel : forall idx (t : list V) j,
  idx / 2 < j -> reduce_walk op fuel idx t !! j = t !! j.
Proof.
  induction fuel as [|fuel IH]; intros idx t j Hj; cbn [reduce_walk];
    destruct (decide (2 <= idx)) as [H2|H2]; try reflexivity.
  destruct (t !! (2 * (idx / 2))); [|reflexivity].
  destruct (t !! (2 * (idx / 2) + 1)); [|reflexivity].
  rewrite IH.
  - apply list_lookup_insert_ne. lia.
  - pose proof (half_bounds (idx / 2)). lia.
Qed.

Lemma reduce_walk_Forall (P : V -> Prop) fuel :
  (forall a b, P a -> P b -> P (op a b)) ->
  forall idx (t : list V), Forall P t -> Forall P (reduce_walk op fuel idx t).
Proof.
  intros Hop.
  induction fuel as [|fuel IH]; intros idx t Ht; cbn [reduce_walk];
    destruct (decide (2 <= idx)) as [H2|H2]; try assumption.
  destruct (t !! (2 * (idx / 2))) as [l|] eqn:El; [|assumption].
  destruct (t !! (2 * (idx / 2) + 1)) as [r|] eqn:Er; [|assumption].
  apply IH. apply Forall_insert; [assumption|].
  apply Hop; eapply Forall_lookup_1; eassumption.
Qed.

(** Recomputing node [i] from its children repairs [i] and can only break
    the parent of [i]. *)
Lemma recompute_node c (t : list V) i l r :
  1 <= i < c -> length t = 2 * c ->
  t !! (2 * i) = Some l -> t !! (2 * i + 1) = Some r ->
  (forall n, 1 <= n < c -> n <> i -> node_ok op t n) ->
  forall n, 1 <= n < c -> n <> i / 2 -> node_ok op (<[i := op l r]> t) n.
Proof.
  intros Hi Hlen Hl Hr Hinv n Hn Hne.
  pose proof (half_bounds i) as Hh.
  destruct (decide (n = i)) as [->|Hni].
  - exists (op l r), l, r. repeat split.
    + apply list_lookup_insert_eq. lia.
    + rewrite list_lookup_insert_ne by lia. assumption.
    + rewrite list_lookup_insert_ne by lia. assumption.
  - destruct (Hinv n Hn Hni) as (v & l' & r' & Hv & Hl' & Hr' & E).
    exists v, l', r'. repeat split; try assumption;
      rewrite list_lookup_insert_ne by lia; assumption.
Qed.

Lemma reduce_walk_inv c fuel : forall idx (t : list V),
  length t = 2 * c -> idx < 2 * c -> idx <= fuel ->
  (forall n, 1 <= n < c -> n <> idx / 2 -> node_ok op t n) ->
  forall n, 1 <= n < c -> node_ok op (reduce_walk op fuel idx t) n.
Proof.
  induction fuel as [|fuel IH]; intros idx t Hlen Hidx Hfuel Hinv n Hn;
    cbn [reduce_walk]; pose proof (half_bounds idx) as Hh.
  - rewrite decide_False by lia. apply Hinv; [assumption|].
    replace idx with 0 by lia. rewrite Nat.Div0.div_0_l; lia.
  - destruct (decide (2 <= idx)) as [H2|H2].
    + destruct (lookup_lt_is_Some_2 t (2 * (idx / 2))) as [l Hl]; [lia|].
      destruct (lookup_lt_is_Some_2 t (2 * (idx / 2) + 1)) as [r Hr]; [lia|].
      rewrite Hl, Hr.
      apply IH; rewrite ?length_insert; try lia.
      apply (recompute_node c); try assumption. lia.
    + apply Hinv; [assumption|].
      assert (idx / 2 = 0) as -> by (apply Nat.div_small; lia). lia.
Qed.

Lemma tree_set_length c idx v (t : list V) :
  length (tree_set op c idx v t) = length t.
Proof. unfold tree_set. rewrite reduce_walk_length, length_insert. reflexivity. Qed.

Lemma tree_set_inv c idx v (t : list V) :
  length t = 2 * c -> idx < c ->
  (forall n, 1 <= n < c -> node_ok op t n) ->
  forall n, 1 <= n < c -> node_ok op (tree_set op c idx v t) n.
Proof.
  intros Hlen Hidx Hinv. unfold tree_set.
  apply reduce_walk_inv; rewrite ?length_insert; try lia.
  intros n Hn Hne. pose proof (half_bounds (idx + c)) as Hh.
  destruct (Hinv n Hn) as (x & l & r & Hx & Hl & Hr & E).
  exists x, l, r. repeat split; try assumption;
    rewrite list_lookup_insert_ne by lia; assumption.
Qed.

Lemma tree_set_leaf c idx v (t : list V) j :
  length t = 2 * c -> idx < c -> j < c ->
  tree_set op c idx v t !! (j + c)
  = if decide (j = idx) then Some v else t !! (j + c).
Proof.
  intros Hlen Hidx Hj. unfold tree_set.
  pose proof (half_bounds (idx + c)) as Hh.
  rewrite reduce_walk_lookup_above by lia.
  destruct (decide (j = idx)) as [->|Hne].
  - apply list_lookup_insert_eq. lia.
  - apply list_lookup_insert_ne. lia.
Qed.

Lemma tree_set_Forall (P : V -> Prop) c idx v (t : list V) :
  (forall a b, P a -> P b -> P (op a b)) ->
  P v -> Forall P t -> Forall P (tree_set op c idx v t).
Proof.
  intros Hop Hv Ht. unfold tree_set.
  apply reduce_walk_Forall; [assumption|].
  apply Forall_insert; assumption.
Qed.
End Reduce.

(** ** What one call does to a well-shaped object *)

Lemma py_mod_ok a b : b <> 0 -> py_mod a b = Ok (a mod b).
Proof. intros H. unfold py_mod. rewrite decide_False by assumption. reflexivity. Qed.

(** [push] on a well-shaped object whose cursor is in range: every statement
    of the body succeeds, and the object afterwards is the one written
    here. *)
Lemma push_eval t s pa :
  shape s -> next_idx s < capacity s ->
  py_pow (max_priority s) (alpha s) = Ok pa ->
  push t s
  = (Ok PyNone,
     Buffer (capacity s) (alpha s)
       (tree_set Rplus (capacity s) (next_idx s) pa (priority_sum s))
       (tree_set py_min (capacity s) (next_idx s) (Fin pa) (priority_min s))
       (max_priority s)
       (put_row (next_idx s) t (data s))
       ((next_idx s + 1) mod capacity s)
       (Nat.min (capacity s) (size s + 1))).
Proof.
  intros (Hs & Hm & Ho & Ha & Hr & Hn & Hd) Hidx Hpow.
  destruct s as [c a ts tm mp [co ca cr cn cd] ni sz]; cbn in *.
  unfold push, store_obs, store_action, store_reward, store_next_obs,
    store_done, mbind, M_bind, gets, modify, lift, mret, M_ret; cbn.
  repeat (rewrite setitem_ok by (cbn; lia); cbn).
  rewrite py_mod_ok by lia. cbn. rewrite Hpow.
  rewrite _set_priority_min_eval by (cbn; lia).
  rewrite _set_priority_sum_eval by (cbn; lia).
  reflexivity.
Qed.

(** One turn of the loop of [update_priorities]. *)
Lemma update_loop_step idx priority rest s pa :
  shape s -> idx < capacity s ->
  py_pow priority (alpha s) = Ok pa ->
  update_loop ((idx, priority) :: rest) s
  = update_loop rest
      (Buffer (capacity s) (alpha s)
         (tree_set Rplus (capacity s) idx pa (priority_sum s))
         (tree_set py_min (capacity s) idx (Fin pa) (priority_min s))
         (py_max (max_priority s) priority)
         (data s) (next_idx s) (size s)).
Proof.
  intros (Hs & Hm & _) Hidx Hpow.
  destruct s as [c a ts tm mp d ni sz]; cbn in *.
  unfold mbind, M_bind, gets, modify, lift, mret, M_ret; cbn.
  rewrite Hpow.
  rewrite _set_priority_min_eval by (cbn; lia).
  rewrite _set_priority_sum_eval by (cbn; lia).
  reflexivity.
Qed.

Lemma update_loop_raise idx priority rest s e :
  py_pow priority (alpha s) = Raise e ->
  update_loop ((idx, priority) :: rest) s
  = (Raise e, with_max_priority (py_max (max_priority s) priority) s).
Proof.
  intros Hpow.
  destruct s as [c a ts tm mp d ni sz]; cbn in *.
  unfold mbind, M_bind, gets, modify, lift, mret, M_ret; cbn.
  rewrite Hpow. reflexivity.
Qed.

(** ** Facts about the Python operators on reals *)

Lemma py_pow_zero_exp x : py_pow x 0 = Ok 1%R.
Proof. unfold py_pow. destruct (Req_dec_T 0 0); [reflexivity|contradiction]. Qed.

Lemma py_pow_pos_base x y :
  (0 < x)%R -> exists v, py_pow x y = Ok v /\ (0 < v)%R.
Proof.
  intros Hx. unfold py_pow.
  destruct (Req_dec_T y 0); [exists 1%R; split; [reflexivity|lra]|].
  destruct (Rlt_dec 0 x); [|contradiction].
  exists (Rpower x y). split; [reflexivity|].
  unfold Rpower. apply exp_pos.
Qed.

Lemma py_pow_one_exp x : (0 < x)%R -> py_pow x 1 = Ok x.
Proof.
  intros Hx. unfold py_pow.
  destruct (Req_dec_T 1 0); [lra|].
  destruct (Rlt_dec 0 x); [|contradiction].
  rewrite Rpower_1 by assumption. reflexivity.
Qed.


(** A non-negative base never leaves the reals: the power is a non-negative
    real, equal to [1] for exponent [0], or the call raises
    ZeroDivisionError. *)
Lemma py_pow_nonneg_base x y :
  (0 <= x)%R ->
  (exists v, py_pow x y = Ok v /\ (0 <= v)%R /\ (y = 0%R -> v = 1%R)) \/
  py_pow x y = Raise ZeroDivisionError.
Proof.
  intros Hx. unfold py_pow.
  destruct (Req_dec_T y 0) as [Ey|Ey].
  { left. exists 1%R. split; [reflexivity|]. split; [lra|reflexivity]. }
  destruct (Rlt_dec 0 x) as [Hp|Hp].
  { left. exists (Rpower x y). split; [reflexivity|].
    split; [|contradiction]. left. unfold Rpower. apply exp_pos. }
  destruct (Req_dec_T x 0) as [Ex|Ex]; [|lra].
  destruct (Rlt_dec y 0); [right; reflexivity|].
  left. exists 0%R. split; [reflexivity|]. split; [lra|contradiction].
Qed.

Lemma py_max_ge_l a b : (a <= py_max a b)%R.
Proof. unfold py_max. destruct (Rlt_dec a b); lra. Qed.

Lemma py_div_ok a b : b <> 0%R -> py_div a b = Ok (a / b)%R.
Proof. intros H. unfold py_div. destruct (Req_dec_T b 0); [contradiction|reflexivity]. Qed.

Lemma py_min_le_l a b : xle (py_min a b) a.
Proof.
  destruct a as [x|], b as [y|]; cbn; try exact I; try lra.
  destruct (Rlt_dec y x); cbn; lra.
Qed.

Lemma py_min_le_r a b : xle (py_min a b) b.
Proof.
  destruct a as [x|], b as [y|]; cbn; try exact I; try lra.
  destruct (Rlt_dec y x); cbn; lra.
Qed.

Lemma xle_refl a : xle a a.
Proof. destruct a; cbn; [lra|exact I]. Qed.

Lemma xle_trans a b c : xle a b -> xle b c -> xle a c.
Proof. destruct a, b, c; cbn; try tauto; lra. Qed.

(** ** The invariant of reachable objects *)

Lemma shape_init c a d : shape (__init__ c a d).
Proof. unfold shape; cbn. rewrite !length_replicate. lia. Qed.

Lemma good_init c a d : good (__init__ c a d).
Proof.
  constructor; cbn; try lia; try lra.
  - apply shape_init.
  - intros n Hn. cbn in Hn. split.
    + exists 0%R, 0%R, 0%R. cbn.
      rewrite !lookup_replicate_2 by lia. repeat split. lra.
    + exists PInf, PInf, PInf. cbn.
      rewrite !lookup_replicate_2 by lia. repeat split.
  - apply Forall_replicate. lra.
  - apply Forall_replicate. exact I.
  - intros i Hi. left. cbn. rewrite !lookup_replicate_2 by lia. split; reflexivity.
Qed.

(** Writing the same non-negative value at slot [idx] of both trees, with
    any admissible new scalars and columns, keeps the invariant. *)
Lemma good_set s idx pa mp' d' ni' sz' :
  good s -> idx < capacity s ->
  (0 <= pa)%R -> (alpha s = 0%R -> pa = 1%R) ->
  (1 <= mp')%R ->
  length (data_obs d') = capacity s ->
  length (data_action d') = capacity s ->
  length (data_reward d') = capacity s ->
  length (data_next_obs d') = capacity s ->
  length (data_done d') = capacity s ->
  ni' < capacity s -> sz' <= capacity s -> (sz' = 0 -> ni' = 0) ->
  (1 <= sz' -> idx = 0 \/ slot_written s 0) ->
  good (Buffer (capacity s) (alpha s)
          (tree_set Rplus (capacity s) idx pa (priority_sum s))
          (tree_set py_min (capacity s) idx (Fin pa) (priority_min s))
          mp' d' ni' sz').
Proof.
  intros G Hidx Hpa Ha Hmp Ho Hac Hr Hn Hd Hni Hsz Hemp Hfst.
  destruct G as [(Hs & Hm & _) Gt _ _ _ Gn Gmn Gs _ _].
  constructor; cbn; try assumption.
  - unfold shape; cbn. rewrite !tree_set_length. lia.
  - intros n Hn'. split.
    + apply tree_set_inv; try assumption. intros k Hk. apply (Gt k Hk).
    + apply tree_set_inv; try assumption. intros k Hk. apply (Gt k Hk).
  - right. assumption.
  - apply tree_set_Forall; try assumption. intros a b Ha' Hb'. lra.
  - apply tree_set_Forall; try assumption.
    intros [a|] [b|] Ha' Hb'; cbn in *; try exact I; try assumption.
    destruct (Rlt_dec b a); cbn; assumption.
  - intros i Hi. unfold slot_ok; cbn.
    rewrite !tree_set_leaf by assumption.
    destruct (decide (i = idx)) as [->|Hne].
    + right. exists pa. repeat split; assumption.
    + apply (Gs i Hi).
  - intros H1. unfold slot_written; cbn [priority_min capacity].
    rewrite tree_set_leaf by (assumption || lia).
    destruct (decide (0 = idx)) as [E|Hne]; [exists pa; reflexivity|].
    destruct (Hfst H1) as [E|W]; [congruence|exact W].
Qed.

(** ** Relating the end state of a computation to its start state *)

Section Respects.
Context (P : buffer -> buffer -> Prop) `{!PreOrder P}.

Lemma respects_ret {A : Type} (a : A) : respects P (mret a).
Proof. intros s. cbn. reflexivity. Qed.

Lemma respects_gets {A : Type} (f : buffer -> A) : respects P (gets f).
Proof. intros s. cbn. reflexivity. Qed.

Lemma respects_lift {A : Type} (r : result A) : respects P (lift r).
Proof. intros s. cbn. reflexivity. Qed.

Lemma respects_bind {A B : Type} (m : M A) (f : A -> M B) :
  respects P m -> (forall a, respects P (f a)) -> respects P (m ≫= f).
Proof.
  intros Hm Hf s. unfold mbind, M_bind.
  specialize (Hm s). destruct (m s) as [[a|e] s']; cbn in *.
  - etransitivity; [exact Hm|apply Hf].
  - exact Hm.
Qed.

Lemma respects_for_each {A B : Type} (f : A -> M B) (l : list A) :
  (forall a, respects P (f a)) -> respects P (for_each f l).
Proof.
  intros Hf. induction l as [|a l IH]; cbn [for_each].
  - apply respects_ret.
  - apply respects_bind; [apply Hf|intros b].
    apply respects_bind; [apply IH|intros bs]. apply respects_ret.
Qed.

Lemma respects_sum_at i : respects P (sum_at i).
Proof.
  unfold sum_at. apply respects_bind; [apply respects_gets|intros t].
  apply respects_lift.
Qed.

Lemma respects_min_at i : respects P (min_at i).
Proof.
  unfold min_at. apply respects_bind; [apply respects_gets|intros t].
  apply respects_lift.
Qed.

Lemma respects_find_loop fuel : forall idx p reads,
  respects P (find_loop fuel idx p reads).
Proof.
  induction fuel as [|fuel IH]; intros idx p reads; cbn [find_loop];
    (apply respects_bind; [apply respects_gets|intros c]);
    destruct (decide (idx < c)) as [Hc|Hc]; try apply respects_ret.
  - apply respects_lift.
  - apply respects_bind; [apply respects_sum_at|intros l].
    destruct (Rgt_dec l p); [apply IH|].
    apply respects_bind; [apply respects_sum_at|intros l']. apply IH.
Qed.

Lemma respects_find_prefix_sum_idx p : respects P (find_prefix_sum_idx p).
Proof.
  unfold find_prefix_sum_idx, find_prefix_sum_trace.
  apply respects_bind.
  - apply respects_bind; [apply respects_gets|intros c].
    apply respects_find_loop.
  - intros r. apply respects_bind; [apply respects_gets|intros c].
    apply respects_ret.
Qed.

(** [sample] is built from reads only. *)
Lemma respects_sample batch_size beta random :
  respects P (sample batch_size beta random).
Proof.
  unfold sample, _sum, _min.
  repeat first
    [ apply respects_ret | apply respects_gets | apply respects_lift
    | apply respects_sum_at | apply respects_min_at
    | apply respects_find_prefix_sum_idx
    | apply respects_for_each; intros ?
    | apply respects_bind; [|intros ?] ].
Qed.
End Respects.

Lemma sample_state batch_size beta random s :
  snd (sample batch_size beta random s) = s.
Proof. symmetry. apply (respects_sample eq). Qed.

(** ** Frames of the mutating methods

    [push] and [update_priorities] end, by return or by exception, in a state
    related to the start state by any preorder that every field write
    of the class respects, where the only writes of [max_priority] are those
    of the form [max(self.max_priority, priority)]. *)

Section Frame.
Context (P : buffer -> buffer -> Prop) `{!PreOrder P}.
Hypothesis P_sum : forall t s, P s (with_priority_sum t s).
Hypothesis P_min : forall t s, P s (with_priority_min t s).
Hypothesis P_data : forall d s, P s (with_data d s).
Hypothesis P_next : forall n s, P s (with_next_idx n s).
Hypothesis P_size : forall n s, P s (with_size n s).
Hypothesis P_max :
  forall p s, P s (with_max_priority (py_max (max_priority s) p) s).

Lemma frame_ret {A : Type} (a : A) : respects P (mret a).
Proof. exact (respects_ret P a). Qed.

Lemma frame_gets {A : Type} (f : buffer -> A) : respects P (gets f).
Proof. exact (respects_gets P f). Qed.

Lemma frame_lift {A : Type} (r : result A) : respects P (lift r).
Proof. exact (respects_lift P r). Qed.

Lemma frame_bind {A B : Type} (m : M A) (f : A -> M B) :
  respects P m -> (forall a, respects P (f a)) -> respects P (m ≫= f).
Proof. exact (respects_bind P m f). Qed.

Lemma frame_modify (g : buffer -> buffer) :
  (forall s, P s (g s)) -> respects P (modify g).
Proof. intros Hg s. apply Hg. Qed.

Ltac frame_steps :=
  repeat first
    [ assumption
    | apply frame_ret | apply frame_gets | apply frame_lift
    | apply (respects_sum_at P) | apply (respects_min_at P)
    | apply frame_modify; intros ?;
        first [ apply P_sum | apply P_min | apply P_data
              | apply P_next | apply P_size ]
    | apply frame_bind; [|intros ?] ].

Lemma frame_sum_walk fuel : forall idx, respects P (sum_walk fuel idx).
Proof.
  induction fuel as [|fuel IH]; intros idx; cbn [sum_walk];
    destruct (decide (2 <= idx)) as [H2|H2]; try apply frame_ret.
  - apply frame_lift.
  - unfold store_sum. repeat first [ apply IH | progress frame_steps ].
Qed.

Lemma frame_min_walk fuel : forall idx, respects P (min_walk fuel idx).
Proof.
  induction fuel as [|fuel IH]; intros idx; cbn [min_walk];
    destruct (decide (2 <= idx)) as [H2|H2]; try apply frame_ret.
  - apply frame_lift.
  - unfold store_min. repeat first [ apply IH | progress frame_steps ].
Qed.

Lemma frame_set_sum idx v : respects P (_set_priority_sum idx v).
Proof.
  unfold _set_priority_sum, store_sum.
  repeat first [ apply frame_sum_walk | progress frame_steps ].
Qed.

Lemma frame_set_min idx v : respects P (_set_priority_min idx v).
Proof.
  unfold _set_priority_min, store_min.
  repeat first [ apply frame_min_walk | progress frame_steps ].
Qed.

Lemma frame_push t : respects P (push t).
Proof.
  unfold push, store_obs, store_action, store_reward, store_next_obs,
    store_done.
  repeat first
    [ apply frame_set_sum | apply frame_set_min
    | apply frame_sum_walk | apply frame_min_walk | progress frame_steps ].
Qed.

Lemma frame_update_loop pairs : respects P (update_loop pairs).
Proof.
  induction pairs as [|[idx priority] rest IH]; cbn [update_loop].
  - apply frame_ret.
  - assert (respects P
      (a ← gets alpha;
       priority_alpha ← lift (py_pow priority a);
       _set_priority_min idx priority_alpha;;
       _set_priority_sum idx priority_alpha;;
       update_loop rest)) as Hrest.
    { repeat first
        [ apply IH | apply frame_set_sum | apply frame_set_min
        | apply frame_sum_walk | apply frame_min_walk
        | progress frame_steps ]. }
    intros s. unfold mbind at 1, M_bind at 1. unfold gets at 1.
    unfold mbind at 1, M_bind at 1, modify at 1.
    etransitivity; [|apply Hrest]. apply P_max.
Qed.

Lemma frame_run_call c : forall s, P s (run_call c s).
Proof.
  intros s. destruct c as [t|bs beta rnd|indexes priorities]; cbn.
  - apply frame_push.
  - apply (respects_sample P).
  - apply frame_update_loop.
Qed.

Lemma frame_run_all calls : forall s, P s (run_all calls s).
Proof.
  induction calls as [|c calls IH]; intros s; cbn.
  - reflexivity.
  - etransitivity; [apply (frame_run_call c)|apply IH].
Qed.
End Frame.

#[global] Instance nondecreasing_max_preorder : PreOrder nondecreasing_max.
Proof.
  split.
  - intros s. unfold nondecreasing_max. lra.
  - intros s1 s2 s3. unfold nondecreasing_max. lra.
Qed.

#[global] Instance same_params_preorder : PreOrder same_params.
Proof.
  split.
  - intros s. split; reflexivity.
  - intros s1 s2 s3 [H1 H2] [H3 H4]. split; congruence.
Qed.

(** No call lowers [max_priority]. *)
Lemma max_priority_run_all calls s : nondecreasing_max s (run_all calls s).
Proof.
  apply frame_run_all; try apply _; intros; unfold nondecreasing_max; cbn;
    try lra.
  apply py_max_ge_l.
Qed.

(** The capacity and the exponent are fixed at construction. *)
Lemma same_params_run_all calls s : same_params s (run_all calls s).
Proof. apply frame_run_all; try apply _; intros; split; reflexivity. Qed.

Lemma same_params_run_call c s : same_params s (run_call c s).
Proof. apply (same_params_run_all [c]). Qed.

(** ** Every reachable object satisfies the invariant *)

Lemma push_raise_empty t s :
  shape s -> capacity s = 0 -> push t s = (Raise IndexError, s).
Proof.
  intros (_ & _ & Ho & _) Hc.
  unfold push, store_obs. unfold mbind at 1, M_bind at 1, gets at 1.
  unfold mbind at 1, M_bind at 1.
  unfold mbind at 1, M_bind at 1, gets at 1.
  unfold mbind at 1, M_bind at 1, lift at 1, setitem.
  rewrite decide_False by lia. reflexivity.
Qed.

Lemma good_push t s : good s -> good (snd (push t s)).
Proof.
  intros G. destruct (good_cursor s G) as [Hc|Hni].
  - rewrite push_raise_empty by (apply G || assumption). exact G.
  - destruct (py_pow_pos_base (max_priority s) (alpha s)) as (pa & Hpa & Hpos).
    { pose proof (good_max s G). lra. }
    rewrite (push_eval t s pa) by (apply G || assumption). cbn [snd].
    destruct (good_shape s G) as (_ & _ & Ho & Ha & Hr & Hn & Hd).
    apply good_set; cbn; rewrite ?length_insert; try assumption; try lia.
    + lra.
    + intros Ea. rewrite Ea, py_pow_zero_exp in Hpa. congruence.
    + apply (good_max s G).
    + apply Nat.mod_upper_bound. lia.
    + intros _. destruct (decide (next_idx s = 0)) as [E|Hne]; [left; exact E|].
      right. apply (good_first s G).
      destruct (size s) eqn:Es; [|lia].
      exfalso. apply Hne. apply (good_empty s G). exact Es.
Qed.

Lemma good_with_max mp s :
  good s -> (1 <= mp)%R -> good (with_max_priority mp s).
Proof.
  intros [Gs Gt Gc Gz Gm Gn Gmn Gl Ge Gf] Hmp.
  constructor; try assumption.
Qed.

Lemma good_update_loop pairs : forall s,
  good s ->
  Forall (fun ip => ip.1 < capacity s /\ (0 <= ip.2)%R) pairs ->
  good (snd (update_loop pairs s)).
Proof.
  induction pairs as [|[idx priority] rest IH]; intros s G Hall.
  - exact G.
  - apply Forall_cons in Hall as [[Hidx Hp] Hrest]. cbn in Hidx, Hp.
    assert (1 <= py_max (max_priority s) priority)%R as Hmax.
    { pose proof (good_max s G). pose proof (py_max_ge_l (max_priority s) priority).
      lra. }
    destruct (py_pow_nonneg_base priority (alpha s) Hp)
      as [(pa & Hpa & Hpos & Hone)|Hraise].
    + rewrite (update_loop_step idx priority rest s pa)
        by (apply G || assumption).
      apply IH; [|exact Hrest].
      destruct (good_shape s G) as (_ & _ & Ho & Ha & Hr & Hn & Hd).
      apply good_set; try assumption.
      * destruct (good_cursor s G); lia.
      * apply (good_size s G).
      * apply (good_empty s G).
      * intros H1. right. apply (good_first s G H1).
    + rewrite (update_loop_raise idx priority rest s _ Hraise). cbn [snd].
      apply good_with_max; assumption.
Qed.

Lemma Forall_zip_valid cap (indexes : list nat) (priorities : list R) :
  Forall (fun i => i < cap) indexes ->
  Forall (fun p => (0 <= p)%R) priorities ->
  Forall (fun ip => ip.1 < cap /\ (0 <= ip.2)%R) (zip indexes priorities).
Proof.
  intros Hi. revert priorities.
  induction Hi as [|i indexes Hi Hrest IH]; intros priorities Hp; cbn.
  - constructor.
  - destruct Hp as [|p priorities Hp Hps]; constructor.
    + split; assumption.
    + apply IH. assumption.
Qed.

Lemma good_run_call c s : good s -> valid_call (capacity s) c -> good (run_call c s).
Proof.
  intros G Hv. destruct c as [t|bs beta rnd|indexes priorities]; cbn.
  - apply good_push. exact G.
  - rewrite sample_state. exact G.
  - destruct Hv as [Hi Hp]. apply good_update_loop; [exact G|].
    apply Forall_zip_valid; assumption.
Qed.

Lemma reachable_good s : reachable s -> good s.
Proof.
  induction 1 as [cap a d|s c Hs IH Hv].
  - apply good_init.
  - apply good_run_call; assumption.
Qed.

Lemma run_all_good calls : forall s,
  good s -> Forall (valid_call (capacity s)) calls -> good (run_all calls s).
Proof.
  induction calls as [|c calls IH]; intros s G Hall; cbn.
  - exact G.
  - apply Forall_cons in Hall as [Hc Hrest].
    apply IH; [apply good_run_call; assumption|].
    destruct (same_params_run_call c s) as [-> _]. exact Hrest.
Qed.

Lemma run_all_reachable calls : forall s,
  reachable s -> Forall (valid_call (capacity s)) calls ->
  reachable (run_all calls s).
Proof.
  induction calls as [|c calls IH]; intros s G Hall; cbn.
  - exact G.
  - apply Forall_cons in Hall as [Hc Hrest].
    apply IH; [apply reach_call; assumption|].
    destruct (same_params_run_call c s) as [-> _]. exact Hrest.
Qed.

(** ** The descent of [find_prefix_sum_idx] *)

Lemma find_loop_exit fuel idx p reads s :
  ~ idx < capacity s -> find_loop fuel idx p reads s = (Ok (idx, reads), s).
Proof.
  intros H. destruct fuel; cbn [find_loop];
    unfold mbind, M_bind, gets; rewrite decide_False by assumption;
    reflexivity.
Qed.

Lemma find_loop_step fuel idx p reads s l :
  idx < capacity s -> priority_sum s !! (idx * 2) = Some l ->
  find_loop (S fuel) idx p reads s
  = if Rgt_dec l p
    then find_loop fuel (2 * idx) p (reads ++ [idx * 2]) s
    else find_loop fuel (2 * idx + 1) (p - l)%R (reads ++ [idx * 2; idx * 2]) s.
Proof.
  intros Hc Hl. cbn [find_loop].
  unfold mbind at 1, M_bind at 1, gets at 1.
  rewrite decide_True by assumption.
  erewrite bind_ok; [|rewrite sum_at_eq, (getitem_ok _ _ _ Hl); reflexivity].
  destruct (Rgt_dec l p); [reflexivity|].
  erewrite bind_ok; [|rewrite sum_at_eq, (getitem_ok _ _ _ Hl); reflexivity].
  reflexivity.
Qed.

Lemma find_loop_step_none fuel idx p reads s :
  idx < capacity s -> priority_sum s !! (idx * 2) = None ->
  find_loop (S fuel) idx p reads s = (Raise IndexError, s).
Proof.
  intros Hc El. cbn [find_loop].
  unfold mbind at 1, M_bind at 1, gets at 1.
  rewrite decide_True by assumption.
  unfold mbind at 1, M_bind at 1. rewrite sum_at_eq.
  unfold getitem. rewrite El. reflexivity.
Qed.

Lemma find_prefix_sum_idx_of_trace p s idx reads :
  find_prefix_sum_trace p s = (Ok (idx, reads), s) ->
  find_prefix_sum_idx p s = (Ok (idx - capacity s), s).
Proof.
  intros H. unfold find_prefix_sum_idx.
  erewrite bind_ok; [|exact H]. reflexivity.
Qed.

(** The descent ends within the fuel, at a leaf position, having read only
    positions in [[2, 2 * capacity)]. *)
Lemma find_loop_safe s fuel : forall idx p reads,
  length (priority_sum s) = 2 * capacity s ->
  1 <= idx < 2 * capacity s -> capacity s <= idx * 2 ^ fuel ->
  Forall (fun r => 2 <= r < 2 * capacity s) reads ->
  exists idx' reads',
    find_loop fuel idx p reads s = (Ok (idx', reads'), s) /\
    capacity s <= idx' < 2 * capacity s /\
    Forall (fun r => 2 <= r < 2 * capacity s) reads'.
Proof.
  induction fuel as [|fuel IH]; intros idx p reads Hlen Hidx Hfuel Hreads.
  - rewrite Nat.pow_0_r, Nat.mul_1_r in Hfuel.
    exists idx, reads. rewrite find_loop_exit by lia.
    repeat split; try assumption; lia.
  - destruct (decide (idx < capacity s)) as [Hc|Hc].
    + destruct (lookup_lt_is_Some_2 (priority_sum s) (idx * 2)) as [l Hl];
        [lia|].
      rewrite (find_loop_step _ _ _ _ _ l) by assumption.
      rewrite Nat.pow_succ_r' in Hfuel.
      destruct (Rgt_dec l p).
      * apply IH; try assumption;
          first [ lia | nia
                | apply Forall_app; split; [assumption|];
                  repeat constructor; lia ].
      * apply IH; try assumption;
          first [ lia | nia
                | apply Forall_app; split; [assumption|];
                  repeat constructor; lia ].
    + exists idx, reads. rewrite find_loop_exit by assumption.
      repeat split; try assumption; lia.
Qed.

(** ** Prefix sums over the leaves *)

Lemma Rsum_app l1 l2 : Rsum (l1 ++ l2) = (Rsum l1 + Rsum l2)%R.
Proof. unfold Rsum. induction l1 as [|x l1 IH]; cbn; [|rewrite IH]; lra. Qed.

Lemma range_sum_split t a n m :
  range_sum t a (n + m) = (range_sum t a n + range_sum t (a + n) m)%R.
Proof.
  unfold range_sum. rewrite <- take_take_drop, Rsum_app, drop_drop. reflexivity.
Qed.

Lemma range_sum_zero t a : range_sum t a 0 = 0%R.
Proof. reflexivity. Qed.

Lemma range_sum_one t a v : t !! a = Some v -> range_sum t a 1 = v.
Proof.
  intros H. unfold range_sum. rewrite (drop_S _ _ _ H).
  change (take 1 (v :: drop (S a) t)) with [v]. cbn. lra.
Qed.

Lemma cum_range_sum s i : cum s i = range_sum (priority_sum s) (capacity s) i.
Proof. reflexivity. Qed.

Lemma pow2_pos h : 1 <= 2 ^ h.
Proof. pose proof (Nat.pow_nonzero 2 h). lia. Qed.

(** A node [n] that lies [h] levels above the leaves holds the sum of the
    [2 ^ h] leaves below it, which are consecutive positions of the array. *)
Lemma node_sum (t : list R) c :
  (forall n, 1 <= n < c -> node_ok Rplus t n) -> 1 <= c ->
  forall h n v,
    c <= n * 2 ^ h -> (n + 1) * 2 ^ h <= 2 * c -> t !! n = Some v ->
    range_sum t (n * 2 ^ h) (2 ^ h) = v.
Proof.
  intros Hinv Hc. induction h as [|h IH]; intros n v Hlo Hhi Hv.
  - rewrite Nat.pow_0_r, Nat.mul_1_r. apply range_sum_one. exact Hv.
  - rewrite Nat.pow_succ_r' in *. pose proof (pow2_pos h) as HP.
    destruct (Hinv n) as (v' & l & r & Hv' & Hl & Hr & E); [nia|].
    assert (v' = v) as -> by congruence.
    pose proof (IH (2 * n) l) as IHl. pose proof (IH (2 * n + 1) r) as IHr.
    replace (n * (2 * 2 ^ h)) with (2 * n * 2 ^ h) by lia.
    replace (2 * 2 ^ h) with (2 ^ h + 2 ^ h) by lia.
    rewrite range_sum_split.
    replace (2 * n * 2 ^ h + 2 ^ h) with ((2 * n + 1) * 2 ^ h) by lia.
    rewrite IHl, IHr; try assumption; try nia. symmetry. exact E.
Qed.

(** From a node [h] levels above the leaves and a target within the node's
    sum, the descent ends at the leaf whose interval of cumulative sums,
    counted from the first leaf below the node, contains the target. *)
Lemma find_loop_locates s :
  (forall n, 1 <= n < capacity s -> node_ok Rplus (priority_sum s) n) ->
  1 <= capacity s ->
  forall h fuel idx p reads v,
    h <= fuel ->
    capacity s <= idx * 2 ^ h -> (idx + 1) * 2 ^ h <= 2 * capacity s ->
    priority_sum s !! idx = Some v -> (0 <= p < v)%R ->
    exists i reads',
      find_loop fuel idx p reads s = (Ok (i, reads'), s) /\
      idx * 2 ^ h <= i < (idx + 1) * 2 ^ h /\
      (range_sum (priority_sum s) (idx * 2 ^ h) (i - idx * 2 ^ h) <= p
       < range_sum (priority_sum s) (idx * 2 ^ h) (i - idx * 2 ^ h + 1))%R.
Proof.
  intros Hinv Hc.
  induction h as [|h IH]; intros fuel idx p reads v Hfuel Hlo Hhi Hv Hp.
  - rewrite Nat.pow_0_r, Nat.mul_1_r in *.
    exists idx, reads. rewrite find_loop_exit by lia.
    split; [reflexivity|]. split; [lia|].
    rewrite Nat.sub_diag. cbn [Nat.add].
    rewrite range_sum_zero, (range_sum_one _ _ _ Hv). lra.
  - destruct fuel as [|fuel]; [lia|].
    rewrite Nat.pow_succ_r' in *. pose proof (pow2_pos h) as HP.
    destruct (Hinv idx) as (v' & l & r & Hv' & Hl & Hr & E); [nia|].
    assert (v' = v) as -> by congruence.
    assert (priority_sum s !! (idx * 2) = Some l) as Hl'
      by (rewrite Nat.mul_comm; exact Hl).
    rewrite (find_loop_step _ _ _ _ _ l) by (assumption || nia).
    destruct (Rgt_dec l p) as [Hgt|Hle].
    + destruct (IH fuel (2 * idx) p (reads ++ [idx * 2]) l)
        as (i & reads' & Ei & Bi & Si); try assumption; try nia; try lra.
      exists i, reads'. split; [exact Ei|].
      replace (idx * (2 * 2 ^ h)) with (2 * idx * 2 ^ h) by lia.
      split; [nia|exact Si].
    + destruct (IH fuel (2 * idx + 1) (p - l)%R (reads ++ [idx * 2; idx * 2]) r)
        as (i & reads' & Ei & Bi & Si); try assumption; try nia; try lra.
      exists i, reads'. split; [exact Ei|]. split; [nia|].
      pose proof (node_sum _ _ Hinv Hc h (2 * idx) l) as Hleft.
      replace (idx * (2 * 2 ^ h)) with (2 * idx * 2 ^ h) by lia.
      replace (i - 2 * idx * 2 ^ h)
        with (2 ^ h + (i - (2 * idx + 1) * 2 ^ h)) by nia.
      rewrite <- Nat.add_assoc.
      rewrite !range_sum_split.
      replace (2 * idx * 2 ^ h + 2 ^ h) with ((2 * idx + 1) * 2 ^ h) by lia.
      rewrite Hleft by (assumption || nia).
      rewrite range_sum_split in Si. lra.
Qed.

(** ** Running the methods on explicit objects *)

Lemma py_min_inf_r x : py_min x PInf = x.
Proof. destruct x; reflexivity. Qed.

Lemma py_min_inf_l x : py_min PInf x = x.
Proof. destruct x; reflexivity. Qed.

Lemma py_min_fin_le a b : (a <= b)%R -> py_min (Fin a) (Fin b) = Fin a.
Proof. intros H. cbn. destruct (Rlt_dec b a); [lra|reflexivity]. Qed.

Lemma py_min_fin_gt a b : (b < a)%R -> py_min (Fin a) (Fin b) = Fin b.
Proof. intros H. cbn. destruct (Rlt_dec b a); [reflexivity|lra]. Qed.

Lemma py_max_le a b : (b <= a)%R -> py_max a b = a.
Proof. intros H. unfold py_max. destruct (Rlt_dec a b); [lra|reflexivity]. Qed.

Lemma py_max_lt a b : (a < b)%R -> py_max a b = b.
Proof. intros H. unfold py_max. destruct (Rlt_dec a b); [reflexivity|lra]. Qed.

(** Normal forms: everything is computed except the operations on reals,
    the tests on reals, and the methods still to be run. *)
Ltac norm :=
  lazy -[IZR Rplus Rminus Rmult Rdiv Ropp Rinv Rlt_dec Rgt_dec Req_dec_T Rpower
         py_min py_max py_pow py_div xdiv INR
         push update_loop sample find_prefix_sum_idx find_prefix_sum_trace
         find_loop _sum _min is_full __len__ row cum
         t_obs t_action t_reward t_next_obs t_done].

Ltac norm_all :=
  lazy -[IZR Rplus Rminus Rmult Rdiv Ropp Rinv Rlt_dec Rgt_dec Req_dec_T Rpower
         py_min py_max py_pow py_div xdiv INR
         t_obs t_action t_reward t_next_obs t_done].

(** [min] and [max] of explicit reals. *)
Ltac py_norm :=
  repeat first
    [ rewrite py_min_inf_r | rewrite py_min_inf_l
    | match goal with
      | |- context [py_min (Fin ?a) (Fin ?b)] =>
          first [ rewrite (py_min_fin_le a b) by lra
                | rewrite (py_min_fin_gt a b) by lra ]
      | |- context [py_max ?a ?b] =>
          first [ rewrite (py_max_le a b) by lra
                | rewrite (py_max_lt a b) by lra ]
      end ].

(** Comparisons of explicit reals. *)
Ltac decide_reals :=
  repeat match goal with
  | |- context [Rgt_dec ?a ?b] =>
      destruct (Rgt_dec a b); [try (exfalso; lra)|try (exfalso; lra)]
  | |- context [Rlt_dec ?a ?b] =>
      destruct (Rlt_dec a b); [try (exfalso; lra)|try (exfalso; lra)]
  end.

Lemma py_pow_zero_base_pos y : (0 < y)%R -> py_pow 0 y = Ok 0%R.
Proof.
  intros Hy. unfold py_pow.
  destruct (Req_dec_T y 0); [lra|].
  destruct (Rlt_dec 0 0); [lra|].
  destruct (Req_dec_T 0 0); [|contradiction].
  destruct (Rlt_dec y 0); [lra|reflexivity].
Qed.

Ltac pow_side :=
  cbn; first [ apply py_pow_one_exp; lra | apply py_pow_zero_exp
             | apply py_pow_zero_base_pos; lra ].

(** The innermost [push] on an explicit object, given the value of
    [max_priority ** alpha]. *)
Ltac eval_push pa :=
  match goal with
  | |- context [push ?t (Buffer ?c ?a ?ts ?tm ?mp ?d ?ni ?sz)] =>
      rewrite (push_eval t (Buffer c a ts tm mp d ni sz) pa);
      [|unfold shape; norm; repeat split; lia|norm; lia|pow_side]
  end; cbn [snd]; norm; py_norm.

(** One turn of [update_priorities] on an explicit object, given the value of
    [priority ** alpha]; and the end of the loop. *)
Ltac eval_update pa :=
  match goal with
  | |- context [update_loop ((?i, ?p) :: ?rest)
                            (Buffer ?c ?a ?ts ?tm ?mp ?d ?ni ?sz)] =>
      rewrite (update_loop_step i p rest (Buffer c a ts tm mp d ni sz) pa);
      [|unfold shape; norm; repeat split; lia|norm; lia|pow_side]
  end; norm; py_norm.

Ltac eval_update_end := cbn [update_loop]; unfold mret, M_ret; cbn [snd].

(** ** The ring store *)



Lemma mod_distinct j n c : j < n -> n < j + c -> j mod c <> n mod c.
Proof.
  intros Hjn Hnc E.
  pose proof (Nat.div_mod_eq j c) as Ej. pose proof (Nat.div_mod_eq n c) as En.
  rewrite E in Ej.
  destruct (le_lt_dec (n / c) (j / c)) as [Hq|Hq]; nia.
Qed.



(** [push] on a reachable object of positive capacity. *)
Lemma push_reachable_eval s t :
  reachable s -> 1 <= capacity s ->
  exists pa, (0 < pa)%R /\ (alpha s = 0%R -> pa = 1%R) /\
    py_pow (max_priority s) (alpha s) = Ok pa /\
    push t s
    = (Ok PyNone,
       Buffer (capacity s) (alpha s)
         (tree_set Rplus (capacity s) (next_idx s) pa (priority_sum s))
         (tree_set py_min (capacity s) (next_idx s) (Fin pa) (priority_min s))
         (max_priority s)
         (put_row (next_idx s) t (data s))
         ((next_idx s + 1) mod capacity s)
         (Nat.min (capacity s) (size s + 1))).
Proof.
  intros Hr Hc. pose proof (reachable_good s Hr) as G.
  destruct (py_pow_pos_base (max_priority s) (alpha s)) as (pa & Hpa & Hpos).
  { pose proof (good_max s G). lra. }
  exists pa. split; [exact Hpos|]. split; [|split; [exact Hpa|]].
  - intros Ea. rewrite Ea, py_pow_zero_exp in Hpa. congruence.
  - apply push_eval; [apply G| |exact Hpa].
    destruct (good_cursor s G); lia.
Qed.


(** Every slot is the residue of exactly one of [c] consecutive push
    ordinals. *)
Lemma slot_of_last c k i :
  1 <= c -> i < c -> exists j, k <= j < c + k /\ j mod c = i.
Proof.
  intros Hc Hi.
  pose proof (Nat.div_mod_eq k c) as Ek.
  pose proof (Nat.mod_upper_bound k c ltac:(lia)) as Hr.
  destruct (le_lt_dec (k mod c) i) as [Hle|Hlt].
  - exists (c * (k / c) + i). split; [lia|].
    symmetry. apply (Nat.mod_unique _ c (k / c)); lia.
  - exists (c * (k / c + 1) + i). split; [lia|].
    symmetry. apply (Nat.mod_unique _ c (k / c + 1)); lia.
Qed.

(** ** Pieces of [sample] *)

Lemma bind_inv {A B : Type} (m : M A) (f : A -> M B) s b s'' :
  (m ≫= f) s = (Ok b, s'') ->
  exists a s', m s = (Ok a, s') /\ f a s' = (Ok b, s'').
Proof.
  unfold mbind, M_bind. destruct (m s) as [[a|e] s']; intros H.
  - exists a, s'. split; [reflexivity|exact H].
  - discriminate.
Qed.

Lemma for_each_ok {A B : Type} (f : A -> M B) (Q : B -> Prop) (l : list A) s :
  (forall a, a ∈ l -> exists b, f a s = (Ok b, s) /\ Q b) ->
  exists bs, for_each f l s = (Ok bs, s) /\ length bs = length l /\ Forall Q bs.
Proof.
  induction l as [|a l IH]; intros Hf; cbn [for_each].
  - exists []. repeat split. constructor.
  - destruct (Hf a) as (b & Eb & Qb); [left|].
    destruct IH as (bs & Ebs & Hlen & Hbs); [intros x Hx; apply Hf; right; exact Hx|].
    exists (b :: bs). split; [|split].
    + erewrite bind_ok; [|exact Eb]. erewrite bind_ok; [|exact Ebs]. reflexivity.
    + cbn. rewrite Hlen. reflexivity.
    + constructor; assumption.
Qed.

Lemma for_each_inv {A B : Type} (f : A -> M B) (Q : B -> Prop) (l : list A) :
  (forall a s b s', f a s = (Ok b, s') -> Q b) ->
  forall s bs s', for_each f l s = (Ok bs, s') -> Forall Q bs.
Proof.
  intros Hf. induction l as [|a l IH]; intros s bs s' H; cbn [for_each] in H.
  - inversion H. constructor.
  - apply bind_inv in H as (b & s1 & Eb & H).
    apply bind_inv in H as (bs' & s2 & Ebs & H).
    inversion H; subst. constructor; [eapply Hf; exact Eb|eapply IH; exact Ebs].
Qed.

(** The root of the min tree is below every node, and the root of a sum tree
    with non-negative entries is above every node. *)
Lemma min_root_le (t : list xreal) c r :
  (forall n, 1 <= n < c -> node_ok py_min t n) -> t !! 1 = Some r ->
  forall n x, 1 <= n < 2 * c -> t !! n = Some x -> xle r x.
Proof.
  intros Hinv Hroot n. induction n as [n IH] using lt_wf_ind.
  intros x Hn Hx. destruct (decide (n = 1)) as [->|Hne].
  - assert (x = r) as -> by congruence. apply xle_refl.
  - pose proof (half_bounds n) as Hh.
    destruct (Hinv (n / 2)) as (v & l & rr & Hv & Hl & Hr & E); [lia|].
    apply xle_trans with v; [apply (IH (n / 2)); (assumption || lia)|].
    rewrite E. destruct (decide (n = 2 * (n / 2))) as [En|En].
    + rewrite <- En in Hl. assert (l = x) as -> by congruence.
      apply py_min_le_l.
    + assert (n = 2 * (n / 2) + 1) as En' by lia.
      rewrite <- En' in Hr. assert (rr = x) as -> by congruence.
      apply py_min_le_r.
Qed.

Lemma sum_root_ge (t : list R) c r :
  (forall n, 1 <= n < c -> node_ok Rplus t n) -> t !! 1 = Some r ->
  Forall (fun v => (0 <= v)%R) t ->
  forall n x, 1 <= n < 2 * c -> t !! n = Some x -> (x <= r)%R.
Proof.
  intros Hinv Hroot Hpos n. induction n as [n IH] using lt_wf_ind.
  intros x Hn Hx. destruct (decide (n = 1)) as [->|Hne].
  - assert (x = r) as -> by congruence. lra.
  - pose proof (half_bounds n) as Hh.
    destruct (Hinv (n / 2)) as (v & l & rr & Hv & Hl & Hr & E); [lia|].
    pose proof (IH (n / 2) ltac:(lia) v ltac:(lia) Hv) as Hvr.
    pose proof (Forall_lookup_1 _ _ _ _ Hpos Hl) as Hl0.
    pose proof (Forall_lookup_1 _ _ _ _ Hpos Hr) as Hr0.
    cbv beta in Hl0, Hr0.
    destruct (decide (n = 2 * (n / 2))) as [En|En].
    + rewrite <- En in Hl. assert (l = x) as -> by congruence. lra.
    + assert (n = 2 * (n / 2) + 1) as En' by lia.
      rewrite <- En' in Hr. assert (rr = x) as -> by congruence. lra.
Qed.

(** From a node whose sum exceeds a non-negative target, the descent ends at
    a leaf of positive value. *)
Lemma find_loop_positive s :
  (forall n, 1 <= n < capacity s -> node_ok Rplus (priority_sum s) n) ->
  forall fuel idx p reads v,
    1 <= idx < 2 * capacity s -> capacity s <= idx * 2 ^ fuel ->
    priority_sum s !! idx = Some v -> (0 <= p < v)%R ->
    exists i reads' l,
      find_loop fuel idx p reads s = (Ok (i, reads'), s) /\
      capacity s <= i < 2 * capacity s /\
      priority_sum s !! i = Some l /\ (0 < l)%R.
Proof.
  intros Hinv.
  induction fuel as [|fuel IH]; intros idx p reads v Hidx Hfuel Hv Hp.
  - rewrite Nat.pow_0_r, Nat.mul_1_r in Hfuel.
    exists idx, reads, v. rewrite find_loop_exit by lia.
    repeat apply conj; try reflexivity; try assumption; try lia; lra.
  - destruct (decide (idx < capacity s)) as [Hc|Hc].
    + destruct (Hinv idx) as (v' & l & r & Hv' & Hl & Hr & E); [lia|].
      assert (v' = v) as -> by congruence.
      assert (priority_sum s !! (idx * 2) = Some l) as Hl'
        by (rewrite Nat.mul_comm; exact Hl).
      rewrite (find_loop_step _ _ _ _ _ l) by assumption.
      rewrite Nat.pow_succ_r' in Hfuel.
      destruct (Rgt_dec l p) as [Hgt|Hle].
      * apply (IH _ _ _ l); try assumption; first [lia|nia|lra].
      * apply (IH _ _ _ r); try assumption; first [lia|nia|lra].
    + exists idx, reads, v. rewrite find_loop_exit by assumption.
      repeat apply conj; try reflexivity; try assumption; try lia; lra.
Qed.

Lemma py_pow_neg_zero x : py_pow x (- 0) = Ok 1%R.
Proof. rewrite Ropp_0. apply py_pow_zero_exp. Qed.


Lemma _sum_eq s S : priority_sum s !! 1 = Some S -> _sum s = (Ok S, s).
Proof. intros H. unfold _sum. rewrite sum_at_eq, (getitem_ok _ _ _ H). reflexivity. Qed.

Lemma _min_eq s m : priority_min s !! 1 = Some m -> _min s = (Ok m, s).
Proof. intros H. unfold _min. rewrite min_at_eq, (getitem_ok _ _ _ H). reflexivity. Qed.

Lemma gather_ok {A : Type} (col : list A) (idxs : list nat) s :
  Forall (fun j => j < length col) idxs ->
  exists vs, for_each (fun i => lift (getitem col i)) idxs s = (Ok vs, s).
Proof.
  intros Hall.
  destruct (for_each_ok (fun i => lift (getitem col i)) (fun _ => True) idxs s)
    as (vs & E & _).
  - intros j Hj. rewrite Forall_forall in Hall.
    destruct (lookup_lt_is_Some_2 col j (Hall j Hj)) as [v Hv].
    exists v. split; [|exact I]. unfold lift. rewrite (getitem_ok _ _ _ Hv).
    reflexivity.
  - exists vs. exact E.
Qed.

(** [sample] returns when the total is not zero, the minimum is finite, the
    normalizing weight is defined and not zero, and every drawn slot has a
    weight; what is known of the drawn slots ([Qi]) carries over to the
    weights ([Qw]). *)
Lemma sample_eval s batch_size beta random S m W
      (Qi : nat -> Prop) (Qw : R -> Prop) :
  shape s -> 1 <= capacity s ->
  priority_sum s !! 1 = Some S -> priority_min s !! 1 = Some (Fin m) ->
  S <> 0%R ->
  py_pow (m / S * INR (size s)) (- beta) = Ok W -> W <> 0%R ->
  (forall i, exists j,
     find_prefix_sum_idx (random i * S) s = (Ok j, s) /\
     j < capacity s /\ Qi j) ->
  (forall j l, j < capacity s -> Qi j ->
     priority_sum s !! (j + capacity s) = Some l ->
     exists w, py_pow (l / S * INR (size s)) (- beta) = Ok w /\ Qw (w / W)%R) ->
  exists r,
    sample batch_size beta random s = (Ok r, s) /\
    length (weights r) = batch_size /\ Forall Qw (weights r) /\
    length (indexes r) = batch_size /\
    Forall (fun j => j < capacity s) (indexes r).
Proof.
  intros (Hs & Hm & Ho & Ha & Hr & Hn & Hd) Hc HS Hmin HS0 HW HW0 Hdraw Hweight.
  pose proof (_sum_eq s S HS) as Esum.
  destruct (for_each_ok
              (fun i => s0 ← _sum; find_prefix_sum_idx (random i * s0))
              (fun j => j < capacity s /\ Qi j) (seq 0 batch_size) s)
    as (idxs & Eidxs & Hlen & Hidxs).
  { intros i _. destruct (Hdraw i) as (j & Ej & Hj).
    exists j. split; [|exact Hj]. erewrite bind_ok; [|exact Esum]. exact Ej. }
  rewrite length_seq in Hlen.
  destruct (for_each_ok
              (fun idx =>
                 c ← gets capacity;
                 leaf ← sum_at (idx + c);
                 s0 ← _sum;
                 prob ← lift (py_div leaf s0);
                 sz ← gets size;
                 weight ← lift (py_pow (prob * INR sz) (- beta));
                 lift (py_div weight W))
              Qw idxs s)
    as (ws & Ews & Hwlen & Hws).
  { intros j Hj. rewrite Forall_forall in Hidxs.
    destruct (Hidxs j Hj) as [Hjc Hqi].
    destruct (lookup_lt_is_Some_2 (priority_sum s) (j + capacity s)) as [l Hl];
      [lia|].
    destruct (Hweight j l Hjc Hqi Hl) as (w & Ew & Hw).
    exists (w / W)%R. split; [|exact Hw].
    erewrite bind_ok; [|reflexivity].
    erewrite bind_ok; [|rewrite sum_at_eq, (getitem_ok _ _ _ Hl); reflexivity].
    erewrite bind_ok; [|exact Esum].
    erewrite bind_ok; [|unfold lift; rewrite py_div_ok by exact HS0; reflexivity].
    erewrite bind_ok; [|reflexivity].
    erewrite bind_ok; [|unfold lift; rewrite Ew; reflexivity].
    unfold lift. rewrite py_div_ok by exact HW0. reflexivity. }
  assert (Forall (fun j => j < capacity s) idxs) as Hin
    by (eapply Forall_impl; [exact Hidxs|intros j [Hj _]; exact Hj]).
  destruct (gather_ok (data_obs (data s)) idxs s) as (co & Eco);
    [rewrite Ho; exact Hin|].
  destruct (gather_ok (data_action (data s)) idxs s) as (ca & Eca);
    [rewrite Ha; exact Hin|].
  destruct (gather_ok (data_reward (data s)) idxs s) as (cr & Ecr);
    [rewrite Hr; exact Hin|].
  destruct (gather_ok (data_next_obs (data s)) idxs s) as (cn & Ecn);
    [rewrite Hn; exact Hin|].
  destruct (gather_ok (data_done (data s)) idxs s) as (cd & Ecd);
    [rewrite Hd; exact Hin|].
  exists (Samples ws idxs co ca cr cn cd).
  split; [|cbn; repeat apply conj; try assumption; congruence].
  unfold sample.
  erewrite bind_ok; [|exact Eidxs].
  erewrite bind_ok; [|apply _min_eq; exact Hmin].
  erewrite bind_ok; [|exact Esum].
  erewrite bind_ok;
    [|unfold lift, xdiv; rewrite py_div_ok by exact HS0; reflexivity].
  erewrite bind_ok; [|reflexivity].
  erewrite bind_ok; [|unfold lift; rewrite HW; reflexivity].
  erewrite bind_ok; [|exact Ews].
  erewrite bind_ok; [|reflexivity].
  erewrite bind_ok; [|exact Eco].
  erewrite bind_ok; [|exact Eca].
  erewrite bind_ok; [|exact Ecr].
  erewrite bind_ok; [|exact Ecn].
  erewrite bind_ok; [|exact Ecd].
  reflexivity.
Qed.


Lemma scaled_pos (m S n : R) : (0 < m)%R -> (0 < S)%R -> (1 <= n)%R ->
  (0 < m / S * n)%R.
Proof.
  intros Hm HS Hn. apply Rmult_lt_0_compat; [apply Rdiv_lt_0_compat|]; lra.
Qed.


Lemma size_INR n : 1 <= n -> (1 <= INR n)%R.
Proof. intros H. change 1%R with (INR 1). apply le_INR. exact H. Qed.

(** On a reachable non-empty buffer the root of the min tree is finite, it
    is below the value of slot 0, and that value is below the total. *)
Lemma nonempty_roots s :
  reachable s -> 1 <= size s ->
  exists S m v0,
    priority_sum s !! 1 = Some S /\ priority_min s !! 1 = Some (Fin m) /\
    (m <= v0 <= S)%R.
Proof.
  intros Hr Hsz. pose proof (reachable_good s Hr) as G.
  destruct (good_shape s G) as (Hs & Hm & _).
  pose proof (good_size s G) as Hcap.
  destruct (lookup_lt_is_Some_2 (priority_sum s) 1) as [S HS]; [lia|].
  destruct (lookup_lt_is_Some_2 (priority_min s) 1) as [r Hroot]; [lia|].
  destruct (good_first s G Hsz) as [v0 Hv0].
  assert (forall n, 1 <= n < capacity s -> node_ok py_min (priority_min s) n)
    as Hmininv by (intros n Hn; apply (good_tree s G n Hn)).
  assert (forall n, 1 <= n < capacity s -> node_ok Rplus (priority_sum s) n)
    as Hsuminv by (intros n Hn; apply (good_tree s G n Hn)).
  pose proof (min_root_le _ _ _ Hmininv Hroot (0 + capacity s) (Fin v0)
                ltac:(lia) Hv0) as Hle.
  destruct r as [m|]; [|contradiction]. cbn in Hle.
  destruct (good_slots s G 0 ltac:(lia)) as [[_ Hinf]|(v & Hv & _ & Hsv & Hmv)];
    [congruence|].
  assert (v = v0) as -> by congruence.
  pose proof (sum_root_ge _ _ _ Hsuminv HS (good_nonneg s G) (0 + capacity s) v0
                ltac:(lia) Hsv) as Hge.
  exists S, m, v0. repeat apply conj; assumption.
Qed.

(** A draw [u * total] with [0 <= u < 1] on a positive total is located at
    a slot of positive leaf value. *)
Lemma draw_positive s S u :
  reachable s -> 1 <= capacity s ->
  priority_sum s !! 1 = Some S -> (0 < S)%R -> (0 <= u < 1)%R ->
  exists j,
    find_prefix_sum_idx (u * S) s = (Ok j, s) /\ j < capacity s /\
    exists l, priority_sum s !! (j + capacity s) = Some l /\ (0 < l)%R.
Proof.
  intros Hr Hc HS Hpos Hu. pose proof (reachable_good s Hr) as G.
  assert (forall n, 1 <= n < capacity s -> node_ok Rplus (priority_sum s) n)
    as Hinv by (intros n Hn; apply (good_tree s G n Hn)).
  pose proof (Nat.pow_gt_lin_r 2 (capacity s) ltac:(lia)) as Hlin.
  destruct (find_loop_positive s Hinv (capacity s) 1 (u * S) [] S)
    as (i & reads & l & Ei & Bi & Hl & Hlpos); try assumption; try lia.
  { split; [apply Rmult_le_pos; lra|].
    rewrite <- (Rmult_1_l S) at 2. apply Rmult_lt_compat_r; lra. }
  exists (i - capacity s). split; [|split; [lia|]].
  - apply find_prefix_sum_idx_of_trace with reads.
    unfold find_prefix_sum_trace. erewrite bind_ok; [exact Ei|reflexivity].
  - exists l. replace (i - capacity s + capacity s) with i by lia.
    split; assumption.
Qed.

(** ** Exponents equal to zero *)

Lemma find_prefix_sum_idx_returns s p :
  1 <= capacity s -> length (priority_sum s) = 2 * capacity s ->
  exists j, find_prefix_sum_idx p s = (Ok j, s) /\ j < capacity s.
Proof.
  intros Hc Hlen.
  pose proof (Nat.pow_gt_lin_r 2 (capacity s) ltac:(lia)) as Hlin.
  destruct (find_loop_safe s (capacity s) 1 p [] Hlen) as (i & reads & E & B & _);
    try lia; [constructor|].
  exists (i - capacity s). split; [|lia].
  apply find_prefix_sum_idx_of_trace with reads.
  unfold find_prefix_sum_trace. erewrite bind_ok; [exact E|reflexivity].
Qed.

Lemma lift_inv {A : Type} (r : result A) s a s' :
  lift r s = (Ok a, s') -> r = Ok a.
Proof. unfold lift. intros H. inversion H. reflexivity. Qed.

(** With [alpha = 0] the loop of [update_priorities] leaves [1] in both
    trees at every slot it is given, and keeps the slots that hold [1]. *)
Lemma update_loop_alpha_zero pairs : forall s,
  shape s -> alpha s = 0%R ->
  Forall (fun ip => ip.1 < capacity s) pairs ->
  forall i, i < capacity s -> i ∈ pairs.*1 \/ slot_is_one s i ->
  priority_sum (snd (update_loop pairs s)) !! (i + capacity s) = Some 1%R /\
  priority_min (snd (update_loop pairs s)) !! (i + capacity s) = Some (Fin 1).
Proof.
  induction pairs as [|[idx priority] rest IH]; intros s Hshape Ha Hall i Hi Hin.
  - destruct Hin as [Hin|Hone]; [inversion Hin|exact Hone].
  - apply Forall_cons in Hall as [Hidx Hrest]. cbn in Hidx.
    pose proof Hshape as (Hs & Hm & Hco & Hca & Hcr & Hcn & Hcd).
    rewrite (update_loop_step idx priority rest s 1);
      [|exact Hshape|assumption|rewrite Ha; apply py_pow_zero_exp].
    apply (IH (Buffer (capacity s) (alpha s)
                 (tree_set Rplus (capacity s) idx 1%R (priority_sum s))
                 (tree_set py_min (capacity s) idx (Fin 1) (priority_min s))
                 (py_max (max_priority s) priority)
                 (data s) (next_idx s) (size s))); try assumption.
    + unfold shape; cbn. rewrite !tree_set_length. repeat split; assumption.
    + destruct (decide (i = idx)) as [->|Hne].
      * right. unfold slot_is_one; cbn.
        rewrite !tree_set_leaf by assumption.
        rewrite !decide_True by reflexivity. split; reflexivity.
      * destruct Hin as [Hin|Hone].
        -- left. cbn in Hin. apply elem_of_cons in Hin as [E|Hin];
             [contradiction|exact Hin].
        -- right. unfold slot_is_one; cbn.
           rewrite !tree_set_leaf by assumption.
           rewrite !decide_False by assumption. exact Hone.
Qed.

(** With [beta = 0] every weight [sample] computes is [1 / 1]. *)
Lemma weights_beta_zero batch_size random s r s' :
  sample batch_size 0 random s = (Ok r, s') ->
  Forall (fun w => w = 1%R) (weights r).
Proof.
  intros H. unfold sample in H.
  apply bind_inv in H as (idxs & s1 & _ & H).
  apply bind_inv in H as (m & s2 & _ & H).
  apply bind_inv in H as (S & s3 & _ & H).
  apply bind_inv in H as (prob_min & s4 & _ & H).
  apply bind_inv in H as (sz & s5 & _ & H).
  apply bind_inv in H as (max_weight & s6 & Emw & H).
  apply lift_inv in Emw. rewrite py_pow_neg_zero in Emw.
  assert (max_weight = 1%R) as -> by congruence.
  apply bind_inv in H as (ws & s7 & Ews & H).
  apply bind_inv in H as (d & s8 & _ & H).
  apply bind_inv in H as (co & s9 & _ & H).
  apply bind_inv in H as (ca & s10 & _ & H).
  apply bind_inv in H as (cr & s11 & _ & H).
  apply bind_inv in H as (cn & s12 & _ & H).
  apply bind_inv in H as (cd & s13 & _ & H).
  inversion H; subst. cbn [weights].
  eapply for_each_inv; [|exact Ews].
  intros idx t b t' Hb. cbv beta in Hb.
  apply bind_inv in Hb as (c & t1 & _ & Hb).
  apply bind_inv in Hb as (leaf & t2 & _ & Hb).
  apply bind_inv in Hb as (S' & t3 & _ & Hb).
  apply bind_inv in Hb as (prob & t4 & _ & Hb).
  apply bind_inv in Hb as (sz' & t5 & _ & Hb).
  apply bind_inv in Hb as (weight & t6 & Ew & Hb).
  apply lift_inv in Ew. rewrite py_pow_neg_zero in Ew.
  assert (weight = 1%R) as -> by congruence.
  apply lift_inv in Hb. unfold py_div in Hb.
  destruct (Req_dec_T 1 0); [lra|]. inversion Hb. lra.
Qed.

(** ** The iteration bounds are never exhausted

    On every object, well-shaped or not, the fuel given to the models of the
    three [while] loops suffices: no method ends in [OutOfFuel]. *)

Lemma wf_ret {A : Type} (a : A) : within_fuel (mret a).
Proof. intros s. discriminate. Qed.

Lemma wf_gets {A : Type} (f : buffer -> A) : within_fuel (gets f).
Proof. intros s. discriminate. Qed.

Lemma wf_modify (g : buffer -> buffer) : within_fuel (modify g).
Proof. intros s. discriminate. Qed.

Lemma wf_lift {A : Type} (r : result A) :
  r <> Raise OutOfFuel -> within_fuel (lift r).
Proof. intros H s. exact H. Qed.

Lemma wf_bind {A B : Type} (m : M A) (f : A -> M B) :
  within_fuel m -> (forall a, within_fuel (f a)) -> within_fuel (m ≫= f).
Proof.
  intros Hm Hf s. unfold mbind, M_bind.
  specialize (Hm s). destruct (m s) as [[a|e] s']; cbn in *.
  - apply Hf.
  - intros E. apply Hm. inversion E. reflexivity.
Qed.

Lemma wf_for_each {A B : Type} (f : A -> M B) (l : list A) :
  (forall a, within_fuel (f a)) -> within_fuel (for_each f l).
Proof.
  intros Hf. induction l as [|a l IH]; cbn [for_each].
  - apply wf_ret.
  - apply wf_bind; [apply Hf|intros b].
    apply wf_bind; [apply IH|intros bs]. apply wf_ret.
Qed.

Lemma getitem_fuel {A : Type} (l : list A) i : getitem l i <> Raise OutOfFuel.
Proof. unfold getitem. destruct (l !! i); discriminate. Qed.

Lemma setitem_fuel {A : Type} (l : list A) i v : setitem i v l <> Raise OutOfFuel.
Proof. unfold setitem. destruct (decide (i < length l)); discriminate. Qed.

Lemma py_pow_fuel x y : py_pow x y <> Raise OutOfFuel.
Proof.
  unfold py_pow.
  repeat match goal with
         | |- context [Req_dec_T ?a ?b] => destruct (Req_dec_T a b)
         | |- context [Rlt_dec ?a ?b] => destruct (Rlt_dec a b)
         end; discriminate.
Qed.

Lemma py_div_fuel a b : py_div a b <> Raise OutOfFuel.
Proof. unfold py_div. destruct (Req_dec_T b 0); discriminate. Qed.

Lemma xdiv_fuel m s : xdiv m s <> Raise OutOfFuel.
Proof.
  destruct m as [a|]; cbn; [apply py_div_fuel|].
  destruct (Req_dec_T s 0); discriminate.
Qed.

Lemma py_mod_fuel a b : py_mod a b <> Raise OutOfFuel.
Proof. unfold py_mod. destruct (decide (b = 0)); discriminate. Qed.

Ltac wf_step :=
  first
    [ assumption
    | apply wf_ret | apply wf_gets | apply wf_modify
    | apply wf_lift;
        first [ apply getitem_fuel | apply setitem_fuel | apply py_pow_fuel
              | apply py_div_fuel | apply xdiv_fuel | apply py_mod_fuel ]
    | apply wf_for_each; intros ?
    | apply wf_bind; [|intros ?] ].

Ltac wf_steps := repeat wf_step.

Lemma wf_sum_walk fuel : forall idx, idx <= fuel -> within_fuel (sum_walk fuel idx).
Proof.
  induction fuel as [|fuel IH]; intros idx Hfuel; cbn [sum_walk];
    destruct (decide (2 <= idx)) as [H2|H2]; try apply wf_ret; [lia|].
  pose proof (half_bounds idx) as Hh.
  unfold sum_at, store_sum.
  repeat first [ apply IH; lia | wf_step ].
Qed.

Lemma wf_min_walk fuel : forall idx, idx <= fuel -> within_fuel (min_walk fuel idx).
Proof.
  induction fuel as [|fuel IH]; intros idx Hfuel; cbn [min_walk];
    destruct (decide (2 <= idx)) as [H2|H2]; try apply wf_ret; [lia|].
  pose proof (half_bounds idx) as Hh.
  unfold min_at, store_min.
  repeat first [ apply IH; lia | wf_step ].
Qed.

Lemma wf_set_sum idx v : within_fuel (_set_priority_sum idx v).
Proof.
  unfold _set_priority_sum, store_sum.
  repeat first [ apply wf_sum_walk; lia | wf_step ].
Qed.

Lemma wf_set_min idx v : within_fuel (_set_priority_min idx v).
Proof.
  unfold _set_priority_min, store_min.
  repeat first [ apply wf_min_walk; lia | wf_step ].
Qed.

Lemma find_loop_fuel s fuel : forall idx p reads,
  1 <= idx -> capacity s <= idx * 2 ^ fuel ->
  fst (find_loop fuel idx p reads s) <> Raise OutOfFuel.
Proof.
  induction fuel as [|fuel IH]; intros idx p reads Hidx Hfuel.
  - rewrite Nat.pow_0_r, Nat.mul_1_r in Hfuel.
    rewrite find_loop_exit by lia. discriminate.
  - destruct (decide (idx < capacity s)) as [Hc|Hc];
      [|rewrite find_loop_exit by assumption; discriminate].
    rewrite Nat.pow_succ_r' in Hfuel.
    destruct (priority_sum s !! (idx * 2)) as [l|] eqn:El.
    + rewrite (find_loop_step _ _ _ _ _ l) by assumption.
      destruct (Rgt_dec l p); apply IH; first [lia|nia].
    + rewrite find_loop_step_none by assumption. discriminate.
Qed.

Lemma wf_find_prefix_sum_idx p : within_fuel (find_prefix_sum_idx p).
Proof.
  unfold find_prefix_sum_idx. apply wf_bind; [|intros r; wf_steps].
  intros s. unfold find_prefix_sum_trace, mbind, M_bind, gets.
  apply find_loop_fuel; [lia|].
  pose proof (Nat.pow_gt_lin_r 2 (capacity s)). lia.
Qed.

Lemma methods_within_fuel :
  (forall t, within_fuel (push t)) /\
  (forall batch_size beta random, within_fuel (sample batch_size beta random)) /\
  (forall indexes priorities, within_fuel (update_priorities indexes priorities)).
Proof.
  repeat apply conj.
  - intros t.
    unfold push, store_obs, store_action, store_reward, store_next_obs,
      store_done.
    repeat first [ apply wf_set_sum | apply wf_set_min | wf_step ].
  - intros batch_size beta random. unfold sample, _sum, _min, sum_at, min_at.
    repeat first [ apply wf_find_prefix_sum_idx | wf_step ].
  - intros indexes priorities. unfold update_priorities.
    induction (zip indexes priorities) as [|[idx priority] rest IH];
      cbn [update_loop].
    + apply wf_ret.
    + repeat first [ apply IH | apply wf_set_sum | apply wf_set_min | wf_step ].
Qed.

(** ** On reachable objects the model never leaves the interpreter

    No call on a reachable object ends in [ComplexResult], [NonFinite] or
    [OutOfFuel]: it returns or raises IndexError or ZeroDivisionError. *)




















(** * The claims *)

(** C1.  After every call of every sequence of [push], [sample] and
    [update_priorities] calls on a fresh buffer, [update_priorities] being
    given slot indices below the capacity and non-negative priorities, every
    internal node [1 <= n < capacity] holds the sum (sum tree) and the minimum
    (min tree) of its two children. *)
Theorem tree_invariant_after_each_call cap a state_dim calls k :
  Forall (valid_call cap) calls ->
  tree_invariant (run_all (take k calls) (__init__ cap a state_dim)).
Proof.
  intros Hall. apply good_tree, run_all_good.
  - apply good_init.
  - apply Forall_take. exact Hall.
Qed.

Lemma tree_invariant_after_each_call_witness :
  tree_invariant
    (run_all (take 2 [Push (Transition [0; 0; 0]%R 0 0 [0; 0; 0]%R false);
                      UpdatePriorities [1] [2%R];
                      Push (Transition [1; 0; 0]%R 1 1 [1; 1; 0]%R true)])
             (__init__ 3 1 3)).
Proof.
  apply (tree_invariant_after_each_call 3 1 3).
  repeat constructor; cbn; lra.
Defined.

(** C2, as amended.  On a buffer whose capacity is a power of two and whose
    tree invariant holds, for every real [p] with [0 <= p < total_sum()],
    [find_prefix_sum_idx p] returns a slot [i] such that the cumulative sum of
    the leaves of the slots [[0, i)] is at most [p], and [p] is less than the
    cumulative sum of the leaves of the slots [[0, i]]. *)
Theorem find_prefix_sum_idx_locates s p total :
  is_pow2 (capacity s) -> tree_invariant s ->
  _sum s = (Ok total, s) -> (0 <= p < total)%R ->
  exists i,
    find_prefix_sum_idx p s = (Ok i, s) /\ i < capacity s /\
    (cum s i <= p < cum s (i + 1))%R.
Proof.
  intros [d Hd] Hinv Hsum Hp.
  assert (forall n, 1 <= n < capacity s -> node_ok Rplus (priority_sum s) n)
    as Hs by (intros n Hn; apply (Hinv n Hn)).
  assert (priority_sum s !! 1 = Some total) as Hroot.
  { unfold _sum in Hsum. rewrite sum_at_eq in Hsum. unfold getitem in Hsum.
    destruct (priority_sum s !! 1); congruence. }
  pose proof (pow2_pos d) as HP.
  pose proof (Nat.pow_gt_lin_r 2 d) as Hlin.
  destruct (find_loop_locates s Hs ltac:(lia) d (capacity s) 1 p [] total)
    as (i & reads & Ei & Bi & Si); try assumption; try lia.
  assert (find_prefix_sum_trace p s = (Ok (i, reads), s)) as Et.
  { unfold find_prefix_sum_trace. erewrite bind_ok; [exact Ei|reflexivity]. }
  exists (i - capacity s). split; [|split].
  - apply find_prefix_sum_idx_of_trace with reads. exact Et.
  - lia.
  - rewrite !cum_range_sum. rewrite Nat.mul_1_l, <- Hd in Si. exact Si.
Qed.

Lemma find_prefix_sum_idx_locates_witness :
  let s := run_all [Push (Transition [0; 0; 0]%R 0 0 [0; 0; 0]%R false);
                    Push (Transition [1; 0; 0]%R 1 1 [1; 1; 0]%R true)] (__init__ 2 1 3) in
  exists i,
    find_prefix_sum_idx (3 / 2) s = (Ok i, s) /\ i < capacity s /\
    (cum s i <= 3 / 2 < cum s (i + 1))%R.
Proof.
  intros s.
  apply (find_prefix_sum_idx_locates s (3 / 2) (1 + 1)).
  - exists 1. unfold s.
    destruct (same_params_run_all
                [Push (Transition [0; 0; 0]%R 0 0 [0; 0; 0]%R false);
                 Push (Transition [1; 0; 0]%R 1 1 [1; 1; 0]%R true)] (__init__ 2 1 3)) as [-> _].
    reflexivity.
  - apply good_tree, run_all_good; [apply good_init|]. repeat constructor.
  - unfold s. norm. do 2 eval_push 1%R. reflexivity.
  - lra.
Defined.

(** C2 as stated fails for a capacity that is not a power of two: with
    capacity 3 and three pushed transitions of leaf value 1 each, the target
    [0] is located at slot 1, whose interval of cumulative sums is
    [[1, 2)]. *)
Lemma find_prefix_sum_idx_capacity_3 :
  let s := run_all [Push (Transition [0; 0; 0]%R 0 0 [0; 0; 0]%R false);
                    Push (Transition [0; 0; 0]%R 0 0 [0; 0; 0]%R false);
                    Push (Transition [0; 0; 0]%R 0 0 [0; 0; 0]%R false)] (__init__ 3 1 3) in
  tree_invariant s /\ _sum s = (Ok (1 + 1 + 1)%R, s) /\
  (0 <= 0 < 1 + 1 + 1)%R /\
  find_prefix_sum_idx 0 s = (Ok 1, s) /\
  ~ (cum s 1 <= 0 < cum s (1 + 1))%R.
Proof.
  intros s.
  split.
  { apply good_tree, run_all_good; [apply good_init|]. repeat constructor. }
  eassert (s = _) as E.
  { unfold s. norm. do 3 eval_push 1%R. reflexivity. }
  clearbody s. subst s.
  split; [reflexivity|].
  split; [lra|].
  split.
  - norm_all. decide_reals. reflexivity.
  - norm_all. lra.
Qed.

(** C3.  The scenario with [capacity = 4] and [alpha = 1]: the total after
    four pushes, the totals and the two located slots after
    [update_priorities([0,1,2,3], [1,2,3,4])], and the overwritten slot 0
    after a fifth push. *)
Theorem scenario_capacity_4 (t1 t2 t3 t4 t5 : transition) (state_dim : nat) :
  let s4 := run_all [Push t1; Push t2; Push t3; Push t4]
                    (__init__ 4 1 state_dim) in
  let s5 := run_call (UpdatePriorities [0; 1; 2; 3] [1; 2; 3; 4]%R) s4 in
  let s6 := run_call (Push t5) s5 in
  _sum s4 = (Ok 4%R, s4) /\
  _sum s5 = (Ok 10%R, s5) /\ _min s5 = (Ok (Fin 1), s5) /\
  find_prefix_sum_idx (1 / 2) s5 = (Ok 0, s5) /\
  find_prefix_sum_idx (99 / 10) s5 = (Ok 3, s5) /\
  next_idx s5 = 0 /\ row (data s6) 0 = Some t5 /\
  py_pow (max_priority s5) (alpha s5) = Ok 4%R /\
  sum_at (0 + capacity s6) s6 = (Ok 4%R, s6) /\
  min_at (0 + capacity s6) s6 = (Ok (Fin 4), s6) /\
  _sum s6 = (Ok 13%R, s6).
Proof.
  intros s4 s5 s6.
  eassert (s4 = _) as E4.
  { unfold s4. norm. do 4 eval_push 1%R. reflexivity. }
  eassert (s5 = _) as E5.
  { unfold s5. rewrite E4. norm.
    eval_update 1%R. eval_update 2%R. eval_update 3%R. eval_update 4%R.
    eval_update_end. reflexivity. }
  eassert (s6 = _) as E6.
  { unfold s6. rewrite E5. norm. eval_push 4%R. reflexivity. }
  clearbody s4 s5 s6. subst s4 s5 s6.
  repeat apply conj.
  all: norm_all; decide_reals; try reflexivity.
  all: try (repeat f_equal; lra).
  - destruct t5; reflexivity.
  - apply py_pow_one_exp; lra.
Qed.









(** C7.  [max_priority] starts at [1.0], and no call of [push], [sample] or
    [update_priorities], returning or raising, lowers it; neither does any
    sequence of calls. *)
Theorem max_priority_never_decreases :
  (forall cap a state_dim, max_priority (__init__ cap a state_dim) = 1%R) /\
  (forall s t, (max_priority s <= max_priority (snd (push t s)))%R) /\
  (forall s batch_size beta random,
     (max_priority s <= max_priority (snd (sample batch_size beta random s)))%R) /\
  (forall s indexes priorities,
     (max_priority s
      <= max_priority (snd (update_priorities indexes priorities s)))%R) /\
  (forall s calls, (max_priority s <= max_priority (run_all calls s))%R).
Proof.
  split; [reflexivity|].
  split; [intros s t; apply (max_priority_run_all [Push t] s)|].
  split; [intros s b beta r; apply (max_priority_run_all [Sample b beta r] s)|].
  split; [intros s i p; apply (max_priority_run_all [UpdatePriorities i p] s)|].
  intros s calls. apply max_priority_run_all.
Qed.

(** C8.  With [beta = 0] every weight returned by [sample] is [1], and
    [sample] does return on every reachable non-empty buffer whose total is
    not zero; with [alpha = 0] the leaf written by [push] and by
    [update_priorities] is [1] in both trees, so every slot of a reachable
    buffer is either unwritten or holds [1]. *)
Theorem exponent_zero :
  (forall batch_size random s r s',
     sample batch_size 0 random s = (Ok r, s') ->
     Forall (fun w => w = 1%R) (weights r)) /\
  (forall batch_size random s total,
     reachable s -> 1 <= size s -> _sum s = (Ok total, s) -> total <> 0%R ->
     exists r, sample batch_size 0 random s = (Ok r, s) /\
               length (weights r) = batch_size /\
               Forall (fun w => w = 1%R) (weights r)) /\
  (forall s t,
     reachable s -> 1 <= capacity s -> alpha s = 0%R ->
     let s' := snd (push t s) in
     sum_at (next_idx s + capacity s) s' = (Ok 1%R, s') /\
     min_at (next_idx s + capacity s) s' = (Ok (Fin 1), s')) /\
  (forall s indexes priorities i,
     reachable s -> alpha s = 0%R ->
     Forall (fun j => j < capacity s) indexes ->
     i ∈ (zip indexes priorities).*1 ->
     let s' := snd (update_priorities indexes priorities s) in
     sum_at (i + capacity s) s' = (Ok 1%R, s') /\
     min_at (i + capacity s) s' = (Ok (Fin 1), s')) /\
  (forall s i,
     reachable s -> alpha s = 0%R -> i < capacity s ->
     (priority_sum s !! (i + capacity s) = Some 0%R /\
      priority_min s !! (i + capacity s) = Some PInf) \/
     (priority_sum s !! (i + capacity s) = Some 1%R /\
      priority_min s !! (i + capacity s) = Some (Fin 1))).
Proof.
  repeat apply conj.
  - exact weights_beta_zero.
  - intros batch_size random s total Hr Hsz Hsum Htotal.
    pose proof (reachable_good s Hr) as G.
    pose proof (good_size s G) as Hcap.
    destruct (nonempty_roots s Hr Hsz) as (S & m & v0 & HS & Hroot & _).
    assert (S = total) as -> by (rewrite (_sum_eq s S HS) in Hsum; congruence).
    destruct (sample_eval s batch_size 0 random total m 1
                (fun _ => True) (fun w => w = 1%R))
      as (r & Er & Hlen & Hws & _); try assumption; try lia; try lra.
    + apply (good_shape s G).
    + apply py_pow_neg_zero.
    + intros i.
      destruct (find_prefix_sum_idx_returns s (random i * total))
        as (j & Ej & Hj); [lia|apply (good_shape s G)|].
      exists j. repeat apply conj; trivial.
    + intros j l _ _ _. exists 1%R. split; [apply py_pow_neg_zero|lra].
    + exists r. repeat apply conj; assumption.
  - intros s t Hr Hc Ha s'.
    pose proof (reachable_good s Hr) as G.
    destruct (good_shape s G) as (Hs & Hm & _).
    assert (next_idx s < capacity s) as Hni by (destruct (good_cursor s G); lia).
    destruct (push_reachable_eval s t Hr Hc) as (pa & _ & Hone & _ & E).
    rewrite (Hone Ha) in E. unfold s'. rewrite E. cbn [snd].
    rewrite sum_at_eq, min_at_eq. cbn [priority_sum priority_min].
    unfold getitem. rewrite !tree_set_leaf by assumption.
    rewrite !decide_True by reflexivity. split; reflexivity.
  - intros s indexes priorities i Hr Ha Hall Hin s'.
    pose proof (reachable_good s Hr) as G.
    assert (Forall (fun ip => ip.1 < capacity s) (zip indexes priorities))
      as Hpairs.
    { apply Forall_forall. intros [j p] Hjp. cbn.
      rewrite Forall_forall in Hall. apply Hall.
      apply (elem_of_zip_l _ _ _ _ Hjp). }
    assert (i < capacity s) as Hi.
    { apply list_elem_of_fmap in Hin as ([j p] & -> & Hjp).
      rewrite Forall_forall in Hpairs. apply (Hpairs _ Hjp). }
    destruct (update_loop_alpha_zero (zip indexes priorities) s
                (good_shape s G) Ha Hpairs i Hi (or_introl Hin)) as [Es Em].
    unfold s', update_priorities. rewrite sum_at_eq, min_at_eq.
    unfold getitem. rewrite Es, Em. split; reflexivity.
  - intros s i Hr Ha Hi.
    destruct (good_slots s (reachable_good s Hr) i Hi)
      as [H|(v & _ & Hone & Hsv & Hmv)]; [left; exact H|].
    right. rewrite (Hone Ha) in Hsv, Hmv. split; assumption.
Qed.

Lemma exponent_zero_witness :
  let s := run_all [Push (Transition [0; 0; 0]%R 0 0 [0; 0; 0]%R false);
                    UpdatePriorities [0] [5%R]] (__init__ 2 0 3) in
  (exists r, sample 3 0 (fun _ => (1 / 2)%R) s = (Ok r, s) /\
             length (weights r) = 3 /\
             Forall (fun w => w = 1%R) (weights r)) /\
  ((priority_sum s !! (0 + capacity s) = Some 0%R /\
    priority_min s !! (0 + capacity s) = Some PInf) \/
   (priority_sum s !! (0 + capacity s) = Some 1%R /\
    priority_min s !! (0 + capacity s) = Some (Fin 1))).
Proof.
  intros s.
  assert (reachable s) as Hr.
  { apply run_all_reachable; [apply reach_init|]. repeat constructor; cbn; lra. }
  assert (s = Buffer 2 0 [0; 1 + 0; 1; 0]%R [PInf; Fin 1; Fin 1; PInf] 5
                (Columns [[0; 0; 0]; [0; 0; 0]]%R [0%Z; 0%Z] [0%R; 0%R]
                         [[0; 0; 0]; [0; 0; 0]]%R [false; false])
                1 1) as E.
  { unfold s. norm. eval_push 1%R. eval_update 1%R. eval_update_end.
    reflexivity. }
  destruct exponent_zero as (_ & Hsample & _ & _ & Hslots).
  split.
  - apply (Hsample 3 (fun _ => (1 / 2)%R) s (1 + 0)%R Hr).
    + rewrite E. cbn. lia.
    + rewrite E. reflexivity.
    + lra.
  - apply (Hslots s 0 Hr).
    + rewrite E. reflexivity.
    + rewrite E. cbn. lia.
Defined.

(** C9.  [sample] leaves every field of the buffer as it found it, whether
    it returns or raises. *)
Theorem sample_does_not_mutate batch_size beta random s :
  let s' := snd (sample batch_size beta random s) in
  next_idx s' = next_idx s /\ size s' = size s /\
  max_priority s' = max_priority s /\
  priority_sum s' = priority_sum s /\ priority_min s' = priority_min s /\
  data_obs (data s') = data_obs (data s) /\
  data_action (data s') = data_action (data s) /\
  data_reward (data s') = data_reward (data s) /\
  data_next_obs (data s') = data_next_obs (data s) /\
  data_done (data s') = data_done (data s) /\
  s' = s.
Proof.
  cbv zeta. rewrite sample_state. repeat split.
Qed.



(** * Further properties of the prioritized buffer *)

(** ** The root of the sum tree is the sum of the leaves *)

Lemma level_sum (t : list R) c :
  (forall n, 1 <= n < c -> node_ok Rplus t n) ->
  forall k, 1 <= k < c -> range_sum t k k = range_sum t (k + 1) (k + 1).
Proof.
  intros Hn k Hk.
  destruct (Hn k Hk) as (v & l & r & Hv & Hl & Hr & ->).
  transitivity (l + r + range_sum t (k + 1) (k - 1))%R.
  - replace (range_sum t k k) with (range_sum t k (1 + (k - 1)))
      by (f_equal; lia).
    rewrite range_sum_split, (range_sum_one t k _ Hv). reflexivity.
  - replace (range_sum t (k + 1) (k + 1))
      with (range_sum t (k + 1) ((k - 1) + (1 + 1))) by (f_equal; lia).
    rewrite range_sum_split.
    replace (k + 1 + (k - 1)) with (2 * k) by lia.
    rewrite range_sum_split.
    rewrite (range_sum_one t (2 * k) _ Hl), (range_sum_one t (2 * k + 1) _ Hr).
    lra.
Qed.

Lemma levels_sum (t : list R) c :
  (forall n, 1 <= n < c -> node_ok Rplus t n) ->
  forall d k, 1 <= k -> k + d = c -> range_sum t k k = range_sum t c c.
Proof.
  intros Hn d. induction d as [|d IH]; intros k Hk E.
  - replace k with c by lia. reflexivity.
  - rewrite (level_sum t c Hn) by lia. apply IH; lia.
Qed.

Lemma root_is_sum_of_leaves s :
  length (priority_sum s) = 2 * capacity s -> tree_invariant s ->
  1 <= capacity s ->
  priority_sum s !! 1 = Some (Rsum (leaves s)).
Proof.
  intros Hlen Ht Hc.
  destruct (lookup_lt_is_Some_2 (priority_sum s) 1 ltac:(lia)) as [v Hv].
  rewrite Hv. f_equal.
  rewrite <- (range_sum_one _ _ _ Hv).
  rewrite (levels_sum (priority_sum s) (capacity s)
             (fun n Hn => proj1 (Ht n Hn)) (capacity s - 1) 1) by lia.
  unfold range_sum, leaves. rewrite take_ge; [reflexivity|].
  rewrite length_drop. lia.
Qed.

(** ** The root of the min tree is the least leaf *)

Lemma py_min_cases a b : py_min a b = a \/ py_min a b = b.
Proof.
  destruct a as [x|], b as [y|]; cbn; auto.
  destruct (Rlt_dec y x); auto.
Qed.

Lemma min_node_attained (t : list xreal) c :
  (forall n, 1 <= n < c -> node_ok py_min t n) ->
  forall k n x, 2 * c - n <= k -> 1 <= n < 2 * c -> t !! n = Some x ->
  exists i, c <= i < 2 * c /\ t !! i = Some x.
Proof.
  intros Hn k. induction k as [|k IH]; intros n x Hk Hr Hx; [lia|].
  destruct (le_lt_dec c n) as [Hleaf|Hin].
  - exists n. split; [lia|exact Hx].
  - destruct (Hn n ltac:(lia)) as (v & l & r & Hv & Hl & Hr' & ->).
    rewrite Hx in Hv. injection Hv as ->.
    destruct (py_min_cases l r) as [E|E]; rewrite E.
    + apply (IH (2 * n)); [lia|lia|exact Hl].
    + apply (IH (2 * n + 1)); [lia|lia|exact Hr'].
Qed.

(** ** [update_priorities] on any arguments *)









#[global] Instance untouched_preorder : PreOrder untouched.
Proof.
  split.
  - intros s. repeat split.
  - intros s1 s2 s3 (A1 & A2 & A3 & A4 & A5) (B1 & B2 & B3 & B4 & B5).
    repeat apply conj; congruence.
Qed.

Lemma untouched_update_loop pairs s : untouched s (snd (update_loop pairs s)).
Proof.
  apply frame_update_loop; try apply _; intros; repeat split.
Qed.



(** ** Leaves after a write *)

Lemma Rsum_cons x l : Rsum (x :: l) = (x + Rsum l)%R.
Proof. reflexivity. Qed.



Lemma leaves_lookup s j : leaves s !! j = priority_sum s !! (j + capacity s).
Proof. unfold leaves. rewrite lookup_drop. f_equal. lia. Qed.




(** ** [sample] on an object of total zero *)

Lemma sample_zero_total s batch_size beta random :
  shape s -> 1 <= capacity s -> priority_sum s !! 1 = Some 0%R ->
  sample batch_size beta random s = (Raise ZeroDivisionError, s).
Proof.
  intros Hs Hc Hroot. pose proof Hs as (Hlen & Hlen' & _).
  unfold sample.
  destruct (for_each_ok
              (fun i => s0 ← _sum; find_prefix_sum_idx (random i * s0))
              (fun _ => True) (seq 0 batch_size) s) as (idxs & Hidxs & _).
  { intros i _. rewrite (bind_ok _ _ s 0%R s (_sum_eq s _ Hroot)).
    destruct (find_prefix_sum_idx_returns s (random i * 0) Hc Hlen)
      as (j & Hj & _).
    exists j. split; [exact Hj|exact I]. }
  rewrite (bind_ok _ _ s idxs s Hidxs).
  destruct (lookup_lt_is_Some_2 (priority_min s) 1 ltac:(lia)) as [m Hm].
  rewrite (bind_ok _ _ s m s (_min_eq s _ Hm)).
  rewrite (bind_ok _ _ s 0%R s (_sum_eq s _ Hroot)).
  unfold mbind at 1, M_bind at 1, lift at 1.
  assert (xdiv m 0 = Raise ZeroDivisionError) as ->; [|reflexivity].
  destruct m as [x|]; cbn; unfold py_div;
    destruct (Req_dec_T 0 0) as [_|N]; try reflexivity; exfalso; apply N; reflexivity.
Qed.

(** ** What a returning [sample] has computed *)

Lemma for_each_reads {A B : Type} (f : A -> M B) (l : list A) s :
  (forall a, respects eq (f a)) ->
  forall bs s', for_each f l s = (Ok bs, s') ->
  s' = s /\ Forall2 (fun a b => f a s = (Ok b, s)) l bs.
Proof.
  intros Hf. induction l as [|a l IH]; intros bs s' H; cbn [for_each] in H.
  - inversion H. split; [reflexivity|constructor].
  - apply bind_inv in H as (b & s1 & Hb & H).
    assert (s1 = s) as -> by (pose proof (Hf a s) as E; rewrite Hb in E; exact (eq_sym E)).
    apply bind_inv in H as (bs' & s2 & Hbs & H).
    destruct (IH _ _ Hbs) as [-> Hall].
    inversion H; subst. split; [reflexivity|]. constructor; assumption.
Qed.

Lemma sum_at_inv i s v s' :
  sum_at i s = (Ok v, s') -> priority_sum s !! i = Some v /\ s' = s.
Proof.
  rewrite sum_at_eq. unfold getitem.
  destruct (priority_sum s !! i); intros H; inversion H. auto.
Qed.

Lemma min_at_inv i s v s' :
  min_at i s = (Ok v, s') -> priority_min s !! i = Some v /\ s' = s.
Proof.
  rewrite min_at_eq. unfold getitem.
  destruct (priority_min s !! i); intros H; inversion H. auto.
Qed.

Lemma gets_inv {A : Type} (f : buffer -> A) s a s' :
  gets f s = (Ok a, s') -> a = f s /\ s' = s.
Proof. unfold gets. intros H. inversion H. auto. Qed.

Lemma lift_inv_state {A : Type} (r : result A) s a s' :
  lift r s = (Ok a, s') -> r = Ok a /\ s' = s.
Proof. unfold lift. intros H. inversion H. auto. Qed.

Lemma gather_inv {A : Type} (col : list A) idxs s vs s' :
  for_each (fun i => lift (getitem col i)) idxs s = (Ok vs, s') ->
  s' = s /\ Forall2 (fun j v => col !! j = Some v) idxs vs.
Proof.
  intros H. apply for_each_reads in H as [-> H].
  - split; [reflexivity|]. eapply Forall2_impl; [exact H|].
    intros j v Hj. cbv beta in Hj. apply lift_inv in Hj.
    unfold getitem in Hj. destruct (col !! j); inversion Hj. reflexivity.
  - intros a. apply (respects_lift eq).
Qed.

Lemma sample_inv batch_size beta random s r s' :
  sample batch_size beta random s = (Ok r, s') ->
  s' = s /\
  exists total m prob_min max_weight,
    priority_sum s !! 1 = Some total /\ priority_min s !! 1 = Some m /\
    xdiv m total = Ok prob_min /\
    py_pow (prob_min * INR (size s)) (- beta) = Ok max_weight /\
    Forall2 (fun i j => find_prefix_sum_idx (random i * total) s = (Ok j, s))
            (seq 0 batch_size) (indexes r) /\
    Forall2 (weight_of s beta max_weight) (indexes r) (weights r) /\
    Forall2 (fun j v => data_obs (data s) !! j = Some v) (indexes r) (s_obs r) /\
    Forall2 (fun j v => data_action (data s) !! j = Some v) (indexes r) (s_action r) /\
    Forall2 (fun j v => data_reward (data s) !! j = Some v) (indexes r) (s_reward r) /\
    Forall2 (fun j v => data_next_obs (data s) !! j = Some v) (indexes r) (s_next_obs r) /\
    Forall2 (fun j v => data_done (data s) !! j = Some v) (indexes r) (s_done r).
Proof.
  intros H. unfold sample in H.
  apply bind_inv in H as (idxs & s1 & Hidxs & H).
  apply for_each_reads in Hidxs as [-> Hidxs].
  2:{ intros i. apply (respects_bind eq); [apply (respects_sum_at eq)|].
      intros S. apply (respects_find_prefix_sum_idx eq). }
  apply bind_inv in H as (m & s2 & Hm & H). apply min_at_inv in Hm as [Hm ->].
  apply bind_inv in H as (S & s3 & HS & H). apply sum_at_inv in HS as [HS ->].
  apply bind_inv in H as (prob_min & s4 & Hpm & H).
  apply lift_inv_state in Hpm as [Hpm ->].
  apply bind_inv in H as (sz & s5 & Hsz & H). apply gets_inv in Hsz as [-> ->].
  apply bind_inv in H as (max_weight & s6 & Emw & H).
  apply lift_inv_state in Emw as [Emw ->].
  apply bind_inv in H as (ws & s7 & Ews & H).
  apply for_each_reads in Ews as [-> Ews].
  2:{ intros i.
      repeat first
        [ apply (respects_ret eq) | apply (respects_gets eq)
        | apply (respects_lift eq) | apply (respects_sum_at eq)
        | apply (respects_bind eq); [|intros ?] ]. }
  apply bind_inv in H as (d & s8 & Hd & H). apply gets_inv in Hd as [-> ->].
  apply bind_inv in H as (co & s9 & Hco & H). apply gather_inv in Hco as [-> Hco].
  apply bind_inv in H as (ca & s10 & Hca & H). apply gather_inv in Hca as [-> Hca].
  apply bind_inv in H as (cr & s11 & Hcr & H). apply gather_inv in Hcr as [-> Hcr].
  apply bind_inv in H as (cn & s12 & Hcn & H). apply gather_inv in Hcn as [-> Hcn].
  apply bind_inv in H as (cd & s13 & Hcd & H). apply gather_inv in Hcd as [-> Hcd].
  inversion H; subst. split; [reflexivity|].
  exists S, m, prob_min, max_weight. cbn [weights indexes s_obs s_action s_reward s_next_obs s_done].
  repeat apply conj; try assumption.
  - eapply Forall2_impl; [exact Hidxs|]. intros i j Hj. cbv beta in Hj.
    apply bind_inv in Hj as (S' & t1 & HS' & Hj).
    apply sum_at_inv in HS' as [HS' ->]. congruence.
  - eapply Forall2_impl; [exact Ews|]. intros j w Hb. cbv beta in Hb.
    apply bind_inv in Hb as (c & t1 & Hc & Hb). apply gets_inv in Hc as [-> ->].
    apply bind_inv in Hb as (leaf & t2 & Hl & Hb). apply sum_at_inv in Hl as [Hl ->].
    apply bind_inv in Hb as (S' & t3 & HS' & Hb). apply sum_at_inv in HS' as [HS' ->].
    apply bind_inv in Hb as (prob & t4 & Hp & Hb). apply lift_inv_state in Hp as [Hp ->].
    apply bind_inv in Hb as (sz' & t5 & Hsz & Hb). apply gets_inv in Hsz as [-> ->].
    apply bind_inv in Hb as (weight & t6 & Ew & Hb). apply lift_inv_state in Ew as [Ew ->].
    apply lift_inv in Hb.
    exists leaf, S', prob, weight. auto.
Qed.

(** ** Powers of positive numbers *)

Lemma py_pow_pos_val x y : (0 < x)%R -> py_pow x y = Ok (Rpower x y).
Proof.
  intros Hx. unfold py_pow.
  destruct (Req_dec_T y 0) as [->|Hy].
  - rewrite Rpower_O by assumption. reflexivity.
  - destruct (Rlt_dec 0 x); [reflexivity|contradiction].
Qed.

Lemma Rpower_ratio a b beta :
  (0 < a)%R -> (0 < b)%R ->
  (Rpower a (- beta) / Rpower b (- beta))%R = Rpower (b / a) beta.
Proof.
  intros Ha Hb. unfold Rpower, Rdiv.
  rewrite <- exp_Ropp, <- exp_plus. f_equal.
  rewrite ln_mult by (try apply Rinv_0_lt_compat; assumption).
  rewrite ln_Rinv by assumption. ring.
Qed.


(** ** [sample] returns on a non-empty object of positive minimum *)

Lemma sample_returns s batch_size beta random m :
  reachable s -> 1 <= size s ->
  (forall i, (0 <= random i < 1)%R) ->
  priority_min s !! 1 = Some (Fin m) -> (0 < m)%R ->
  exists r, sample batch_size beta random s = (Ok r, s).
Proof.
  intros Hr Hsz Hrand Hroot' Hm.
  pose proof (reachable_good s Hr) as G.
  pose proof (good_size s G) as Hcap.
  destruct (nonempty_roots s Hr Hsz) as (S & m' & v0 & HS & Hroot & Hle).
  assert (m' = m) as -> by congruence.
  pose proof (size_INR _ Hsz) as Hn.
  assert (0 < S)%R as HSpos by lra.
  pose proof (scaled_pos m S (INR (size s)) Hm HSpos Hn) as Hbase.
  destruct (py_pow_pos_base (m / S * INR (size s)) (- beta) Hbase)
    as (W & HW & HWpos).
  destruct (sample_eval s batch_size beta random S m W
              (fun j => exists l, priority_sum s !! (j + capacity s) = Some l
                                  /\ (0 < l)%R)
              (fun w => True))
    as (r & Er & _); try assumption; try lia; try lra.
  - apply (good_shape s G).
  - intros i. apply draw_positive; try assumption; [lia|apply Hrand].
  - intros j l Hj (l' & Hl' & Hlpos) Hl.
    assert (l' = l) as -> by congruence.
    destruct (py_pow_pos_base (l / S * INR (size s)) (- beta)) as (w & Hw & _).
    { apply scaled_pos; assumption. }
    exists w. split; [exact Hw|exact I].
  - exists r. exact Er.
Qed.

(** ** The descent of [find_prefix_sum_idx] outside [[0, total)] *)

Lemma find_loop_leftmost s :
  (forall n, 1 <= n < capacity s -> node_ok Rplus (priority_sum s) n) ->
  Forall (fun v => (0 <= v)%R) (priority_sum s) ->
  forall n fuel idx p reads,
    n <= fuel -> idx * 2 ^ n = capacity s -> 1 <= idx -> (p < 0)%R ->
    exists reads', find_loop fuel idx p reads s = (Ok (capacity s, reads'), s).
Proof.
  intros Hn Hpos n. induction n as [|n IH]; intros fuel idx p reads Hf E H1 Hp.
  - rewrite Nat.pow_0_r, Nat.mul_1_r in E. subst idx.
    exists reads. apply find_loop_exit. lia.
  - rewrite Nat.pow_succ_r' in E.
    pose proof (pow2_pos n) as H2.
    destruct fuel as [|fuel]; [lia|].
    assert (1 <= idx < capacity s) as Hidx by nia.
    destruct (Hn idx Hidx) as (v & l & r & Hv & Hl & Hr & ->).
    rewrite (Nat.mul_comm 2 idx) in Hl.
    rewrite (find_loop_step fuel idx p reads s l) by (lia || assumption).
    assert (0 <= l)%R as Hl0.
    { rewrite Forall_forall in Hpos. apply Hpos.
      apply list_elem_of_lookup. eauto. }
    destruct (Rgt_dec l p) as [_|N]; [|exfalso; apply N; lra].
    apply IH; [lia|nia|lia|exact Hp].
Qed.

Lemma find_loop_rightmost s :
  (forall n, 1 <= n < capacity s -> node_ok Rplus (priority_sum s) n) ->
  Forall (fun v => (0 <= v)%R) (priority_sum s) ->
  forall n fuel idx p reads v,
    n <= fuel -> (idx + 1) * 2 ^ n = 2 * capacity s -> 1 <= idx ->
    priority_sum s !! idx = Some v -> (v <= p)%R ->
    exists reads',
      find_loop fuel idx p reads s = (Ok (2 * capacity s - 1, reads'), s).
Proof.
  intros Hn Hpos n. induction n as [|n IH]; intros fuel idx p reads v Hf E H1 Hv Hp.
  - rewrite Nat.pow_0_r, Nat.mul_1_r in E.
    replace (2 * capacity s - 1) with idx by lia.
    exists reads. apply find_loop_exit. lia.
  - rewrite Nat.pow_succ_r' in E.
    pose proof (pow2_pos n) as H2.
    destruct fuel as [|fuel]; [lia|].
    assert (1 <= idx < capacity s) as Hidx by nia.
    destruct (Hn idx Hidx) as (v' & l & r & Hv' & Hl & Hr & ->).
    assert (v = (l + r)%R) as -> by congruence.
    assert (0 <= r)%R as Hr0.
    { rewrite Forall_forall in Hpos. apply Hpos.
      apply list_elem_of_lookup. eauto. }
    rewrite (Nat.mul_comm 2 idx) in Hl.
    rewrite (find_loop_step fuel idx p reads s l) by (lia || assumption).
    destruct (Rgt_dec l p) as [Hgt|_]; [exfalso; lra|].
    apply (IH fuel (2 * idx + 1) (p - l)%R _ r); [lia|nia|lia|exact Hr|lra].
Qed.

Lemma find_prefix_sum_idx_of_loop p s idx reads :
  find_loop (capacity s) 1 p [] s = (Ok (idx, reads), s) ->
  find_prefix_sum_idx p s = (Ok (idx - capacity s), s).
Proof.
  intros E. apply find_prefix_sum_idx_of_trace with reads.
  unfold find_prefix_sum_trace. erewrite bind_ok; [exact E|reflexivity].
Qed.

Lemma pow2_fuel d : d <= 2 ^ d.
Proof. pose proof (Nat.pow_gt_lin_r 2 d ltac:(lia)). lia. Qed.

(** ** No leaf exceeds [max_priority ** alpha] *)






(** ** The properties *)

(** X1.  On a buffer of positive capacity whose tree invariant holds, of any
    capacity, [_sum()] returns the sum of all the leaves of the sum tree. *)
Theorem total_sum_is_sum_of_leaves s :
  length (priority_sum s) = 2 * capacity s -> tree_invariant s ->
  1 <= capacity s ->
  _sum s = (Ok (Rsum (leaves s)), s).
Proof. intros Hlen Ht Hc. apply _sum_eq, root_is_sum_of_leaves; assumption. Qed.

Lemma total_sum_is_sum_of_leaves_witness :
  let s := run_all [Push (Transition [0; 0; 0]%R 0 0 [0; 0; 0]%R false);
                    UpdatePriorities [0] [2%R];
                    Push (Transition [1; 0; 0]%R 1 1 [1; 1; 0]%R true)]
                   (__init__ 3 1 3) in
  _sum s = (Ok (Rsum (leaves s)), s).
Proof.
  intros s.
  assert (good s) as G.
  { apply run_all_good; [apply good_init|]. repeat constructor; cbn; lra. }
  destruct (same_params_run_all
              [Push (Transition [0; 0; 0]%R 0 0 [0; 0; 0]%R false);
               UpdatePriorities [0] [2%R];
               Push (Transition [1; 0; 0]%R 1 1 [1; 1; 0]%R true)]
              (__init__ 3 1 3)) as [Ec _].
  apply total_sum_is_sum_of_leaves.
  - apply G.
  - apply G.
  - fold s in Ec. rewrite Ec. cbn. lia.
Defined.

(** X2.  On a buffer whose tree invariant holds, the value [_min()] returns
    is held by some leaf of the min tree and is at most every leaf: it is the
    least leaf, [float('inf')] when no slot was ever written. *)
Theorem total_min_is_least_leaf s m :
  tree_invariant s -> 1 <= capacity s -> _min s = (Ok m, s) ->
  (exists j, j < capacity s /\ priority_min s !! (j + capacity s) = Some m) /\
  (forall j x, j < capacity s ->
     priority_min s !! (j + capacity s) = Some x -> xle m x).
Proof.
  intros Ht Hc Hm. apply min_at_inv in Hm as [Hm _].
  assert (forall n, 1 <= n < capacity s -> node_ok py_min (priority_min s) n)
    as Hn by (intros n Hn; apply (Ht n Hn)).
  split.
  - destruct (min_node_attained _ _ Hn (2 * capacity s) 1 m) as (i & Hi & Ei);
      [lia|lia|exact Hm|].
    exists (i - capacity s). split; [lia|].
    replace (i - capacity s + capacity s) with i by lia. exact Ei.
  - intros j x Hj Hx.
    apply (min_root_le _ _ _ Hn Hm (j + capacity s)); [lia|exact Hx].
Qed.

Lemma total_min_is_least_leaf_witness :
  let s := run_all [Push (Transition [0; 0; 0]%R 0 0 [0; 0; 0]%R false);
                    Push (Transition [1; 0; 0]%R 1 1 [1; 1; 0]%R true)]
                   (__init__ 2 1 3) in
  (exists j, j < capacity s /\ priority_min s !! (j + capacity s) = Some (Fin 1)) /\
  (forall j x, j < capacity s ->
     priority_min s !! (j + capacity s) = Some x -> xle (Fin 1) x).
Proof.
  intros s.
  assert (good s) as G.
  { apply run_all_good; [apply good_init|]. repeat constructor. }
  apply total_min_is_least_leaf.
  - apply G.
  - unfold s. norm. do 2 eval_push 1%R. norm_all. lia.
  - unfold s. norm. do 2 eval_push 1%R. reflexivity.
Defined.



(** X4.  [update_priorities] writes nothing but the two trees and
    [max_priority]: for all arguments and from every state, returning or
    raising, it leaves the stored transitions, the cursor, the size, the
    capacity and [alpha] as they were. *)
Theorem update_priorities_frame indexes priorities s :
  let s' := snd (update_priorities indexes priorities s) in
  capacity s' = capacity s /\ alpha s' = alpha s /\ data s' = data s /\
  next_idx s' = next_idx s /\ size s' = size s.
Proof. apply untouched_update_loop. Qed.






(** X7.  On a buffer of positive capacity whose total priority is zero, as
    on every buffer nothing was pushed into, [sample] raises
    ZeroDivisionError for every batch size, also [0], every [beta] and
    all draws, and leaves the buffer as it was. *)
Theorem sample_on_zero_total s batch_size beta random :
  shape s -> 1 <= capacity s -> _sum s = (Ok 0%R, s) ->
  sample batch_size beta random s = (Raise ZeroDivisionError, s).
Proof.
  intros Hs Hc Hsum. apply sum_at_inv in Hsum as [Hroot _].
  apply sample_zero_total; assumption.
Qed.

Lemma sample_on_zero_total_witness :
  sample 0 1 (fun _ => (1 / 2)%R) (__init__ 2 1 3)
  = (Raise ZeroDivisionError, __init__ 2 1 3).
Proof.
  apply sample_on_zero_total.
  - apply shape_init.
  - cbn. lia.
  - reflexivity.
Defined.

Lemma row_Some d j o a rw n e :
  data_obs d !! j = Some o -> data_action d !! j = Some a ->
  data_reward d !! j = Some rw -> data_next_obs d !! j = Some n ->
  data_done d !! j = Some e ->
  row d j = Some (Transition o a rw n e).
Proof.
  intros Ho Ha Hr Hn He. unfold row. rewrite Ho, Ha, Hr, Hn, He. reflexivity.
Qed.

(** X8.  Whenever [sample] returns, from any state: the buffer is as it
    was; there are [batch_size] indexes and weights; the [k]-th index is what
    [find_prefix_sum_idx] returns for the [k]-th draw scaled by the total;
    and the [k]-th row of the returned columns is the transition stored at
    that index. *)
Theorem sample_returns_stored_rows batch_size beta random s r s' :
  sample batch_size beta random s = (Ok r, s') ->
  s' = s /\
  length (indexes r) = batch_size /\ length (weights r) = batch_size /\
  forall k j, indexes r !! k = Some j ->
    (exists total,
       _sum s = (Ok total, s) /\
       find_prefix_sum_idx (random k * total) s = (Ok j, s)) /\
    (exists t, row (data s) j = Some t /\ sampled_row r k = Some t).
Proof.
  intros H.
  apply sample_inv in H
    as (-> & total & m & pm & W & Ht & Hm & Hpm & HW & Hidx & Hws
        & Hco & Hca & Hcr & Hcn & Hcd).
  pose proof (Forall2_length _ _ _ Hidx) as Li. rewrite length_seq in Li.
  pose proof (Forall2_length _ _ _ Hws) as Lw.
  split; [reflexivity|]. split; [lia|]. split; [lia|].
  intros k j Hk. split.
  - exists total. split; [apply _sum_eq, Ht|].
    destruct (Forall2_lookup_r _ _ _ _ _ Hidx Hk) as (i & Hi & Hfind).
    apply lookup_seq in Hi as [-> _]. exact Hfind.
  - destruct (Forall2_lookup_l _ _ _ _ _ Hco Hk) as (o & Ho & Ho').
    destruct (Forall2_lookup_l _ _ _ _ _ Hca Hk) as (a & Ha & Ha').
    destruct (Forall2_lookup_l _ _ _ _ _ Hcr Hk) as (rw & Hr & Hr').
    destruct (Forall2_lookup_l _ _ _ _ _ Hcn Hk) as (n & Hn & Hn').
    destruct (Forall2_lookup_l _ _ _ _ _ Hcd Hk) as (e & He & He').
    exists (Transition o a rw n e). split.
    + apply row_Some; assumption.
    + unfold sampled_row. apply row_Some; assumption.
Qed.

Lemma two_pushes_reachable :
  reachable (run_all [Push (Transition [0; 0; 0]%R 0 0 [0; 0; 0]%R false);
                      Push (Transition [1; 0; 0]%R 1 1 [1; 1; 0]%R true)]
                     (__init__ 2 1 3)).
Proof. apply run_all_reachable; [apply reach_init|]. repeat constructor. Qed.

Lemma two_pushes_sample batch_size beta :
  let s := run_all [Push (Transition [0; 0; 0]%R 0 0 [0; 0; 0]%R false);
                    Push (Transition [1; 0; 0]%R 1 1 [1; 1; 0]%R true)]
                   (__init__ 2 1 3) in
  exists r, sample batch_size beta (fun _ => (1 / 2)%R) s = (Ok r, s).
Proof.
  intros s. apply (sample_returns s batch_size beta (fun _ => (1 / 2)%R) 1).
  - apply two_pushes_reachable.
  - unfold s. norm. do 2 eval_push 1%R. norm_all. lia.
  - intros _. lra.
  - unfold s. norm. do 2 eval_push 1%R. reflexivity.
  - lra.
Qed.

Lemma sample_returns_stored_rows_witness :
  let s := run_all [Push (Transition [0; 0; 0]%R 0 0 [0; 0; 0]%R false);
                    Push (Transition [1; 0; 0]%R 1 1 [1; 1; 0]%R true)]
                   (__init__ 2 1 3) in
  exists r,
    length (indexes r) = 3 /\ length (weights r) = 3 /\
    forall k j, indexes r !! k = Some j ->
      (exists total,
         _sum s = (Ok total, s) /\
         find_prefix_sum_idx (1 / 2 * total) s = (Ok j, s)) /\
      (exists t, row (data s) j = Some t /\ sampled_row r k = Some t).
Proof.
  intros s. destruct (two_pushes_sample 3 (1 / 2)) as (r & Hr). fold s in Hr.
  exists r.
  exact (proj2 (sample_returns_stored_rows 3 (1 / 2) (fun _ => (1 / 2)%R)
                  s r s Hr)).
Defined.

(** X9.  On a non-empty buffer with positive total and positive minimum,
    the weight [sample] returns for an index whose leaf [leaf] is positive is
    [(min / leaf) ** beta], [min] being [_min()]: it depends on the ratio of
    the two priorities only, not on the total or the size. *)
Theorem sample_weight_formula batch_size beta random s r s' total m k j leaf :
  sample batch_size beta random s = (Ok r, s') ->
  _sum s = (Ok total, s) -> _min s = (Ok (Fin m), s) ->
  (0 < total)%R -> (0 < m)%R -> 1 <= size s ->
  indexes r !! k = Some j ->
  priority_sum s !! (j + capacity s) = Some leaf -> (0 < leaf)%R ->
  weights r !! k = Some (Rpower (m / leaf) beta).
Proof.
  intros H Hsum Hmin Htot Hm Hsz Hk Hleaf Hlpos.
  apply sum_at_inv in Hsum as [Hsum _]. apply min_at_inv in Hmin as [Hmin _].
  apply sample_inv in H
    as (-> & total' & m' & pm & W & Ht & Hm' & Hpm & HW & _ & Hws & _).
  assert (total' = total) as -> by congruence.
  assert (m' = Fin m) as -> by congruence.
  destruct (Forall2_lookup_l _ _ _ _ _ Hws Hk)
    as (w & Hw & leaf' & total' & prob & weight & El & Et & Ep & Ewt & Ew).
  assert (leaf' = leaf) as -> by congruence.
  assert (total' = total) as -> by congruence.
  rewrite Hw. f_equal.
  pose proof (size_INR _ Hsz) as Hn.
  cbn in Hpm. rewrite py_div_ok in Hpm, Ep by lra.
  injection Hpm as <-. injection Ep as <-.
  rewrite py_pow_pos_val in HW by (apply scaled_pos; assumption).
  rewrite py_pow_pos_val in Ewt by (apply scaled_pos; assumption).
  injection HW as <-. injection Ewt as <-.
  unfold py_div in Ew.
  destruct (Req_dec_T _ 0) as [_|_]; [discriminate|]. injection Ew as <-.
  rewrite Rpower_ratio by (apply scaled_pos; assumption).
  f_equal. field. split; [|split]; lra.
Qed.

Lemma sample_weight_formula_witness :
  let s := run_all [Push (Transition [0; 0; 0]%R 0 0 [0; 0; 0]%R false);
                    Push (Transition [1; 0; 0]%R 1 1 [1; 1; 0]%R true)]
                   (__init__ 2 1 3) in
  exists r,
    sample 3 (1 / 2) (fun _ => (1 / 2)%R) s = (Ok r, s) /\
    indexes r !! 0 = Some 1 /\
    weights r !! 0 = Some (Rpower (1 / 1) (1 / 2)).
Proof.
  intros s. destruct (two_pushes_sample 3 (1 / 2)) as (r & Hr). fold s in Hr.
  exists r. split; [exact Hr|].
  assert (priority_sum s !! 1 = Some (1 + 1)%R) as Hroot.
  { unfold s. norm. do 2 eval_push 1%R. reflexivity. }
  assert (indexes r !! 0 = Some 1) as Hk.
  { pose proof Hr as Hr'.
    apply sample_inv in Hr'
      as (_ & total & m & pm & W & Ht & _ & _ & _ & Hidx & _).
    rewrite Hroot in Ht. injection Ht as <-.
    destruct (Forall2_lookup_l _ _ _ 0 0 Hidx eq_refl) as (j & Hj & Hfind).
    rewrite Hj. f_equal.
    assert (find_prefix_sum_idx (1 / 2 * (1 + 1)) s = (Ok 1, s)) as E.
    { clear Hr Hidx Hj Hfind Hroot. eassert (s = _) as Es.
      { unfold s. norm. do 2 eval_push 1%R. reflexivity. }
      clearbody s. subst s. norm_all. decide_reals. reflexivity. }
    congruence. }
  split; [exact Hk|].
  apply (sample_weight_formula 3 (1 / 2) (fun _ => (1 / 2)%R) s r s
           (1 + 1) 1 0 1 1 Hr).
  - apply _sum_eq, Hroot.
  - unfold s. norm. do 2 eval_push 1%R. reflexivity.
  - lra.
  - lra.
  - unfold s. norm. do 2 eval_push 1%R. norm_all. lia.
  - exact Hk.
  - unfold s. norm. do 2 eval_push 1%R. reflexivity.
  - lra.
Defined.



(** X11.  On a buffer whose capacity is a power of two, whose tree invariant
    holds and whose sum tree has no negative entry, a target outside
    [[0, total)] is clamped: [find_prefix_sum_idx] returns slot [0] for every
    negative target and the last slot, [capacity - 1], for every target at or
    above the total. *)
Theorem find_prefix_sum_idx_clamps s p total :
  is_pow2 (capacity s) -> tree_invariant s ->
  Forall (fun v => (0 <= v)%R) (priority_sum s) ->
  _sum s = (Ok total, s) ->
  ((p < 0)%R -> find_prefix_sum_idx p s = (Ok 0, s)) /\
  ((total <= p)%R -> find_prefix_sum_idx p s = (Ok (capacity s - 1), s)).
Proof.
  intros [d Hd] Ht Hpos Hsum. apply sum_at_inv in Hsum as [Hroot _].
  assert (forall n, 1 <= n < capacity s -> node_ok Rplus (priority_sum s) n)
    as Hn by (intros n Hn; apply (Ht n Hn)).
  pose proof (pow2_fuel d) as Hfuel. pose proof (pow2_pos d) as Hc.
  split; intros Hp.
  - destruct (find_loop_leftmost s Hn Hpos d (capacity s) 1 p []) as (reads & E);
      [lia|lia|lia|exact Hp|].
    rewrite (find_prefix_sum_idx_of_loop p s _ _ E). do 2 f_equal. lia.
  - destruct (find_loop_rightmost s Hn Hpos d (capacity s) 1 p [] total)
      as (reads & E); [lia|lia|lia|exact Hroot|exact Hp|].
    rewrite (find_prefix_sum_idx_of_loop p s _ _ E). do 2 f_equal. lia.
Qed.

Lemma find_prefix_sum_idx_clamps_witness :
  let s := run_all [Push (Transition [0; 0; 0]%R 0 0 [0; 0; 0]%R false);
                    Push (Transition [1; 0; 0]%R 1 1 [1; 1; 0]%R true)]
                   (__init__ 2 1 3) in
  find_prefix_sum_idx (-1) s = (Ok 0, s) /\
  find_prefix_sum_idx 5 s = (Ok (capacity s - 1), s).
Proof.
  intros s.
  pose proof (reachable_good s two_pushes_reachable) as G.
  assert (is_pow2 (capacity s)) as Hp.
  { exists 1. unfold s. norm. do 2 eval_push 1%R. reflexivity. }
  assert (_sum s = (Ok (1 + 1)%R, s)) as Hs.
  { unfold s. norm. do 2 eval_push 1%R. reflexivity. }
  split.
  - apply (find_prefix_sum_idx_clamps s (-1) (1 + 1) Hp); [apply G|apply G|exact Hs|lra].
  - apply (find_prefix_sum_idx_clamps s 5 (1 + 1) Hp); [apply G|apply G|exact Hs|lra].
Defined.

(** X12.  For every capacity, power of two or not: on a buffer whose tree
    invariant holds, [find_prefix_sum_idx p] with [0 <= p < total] returns a
    slot below the capacity whose leaf in the sum tree is positive. *)
Theorem find_prefix_sum_idx_positive_leaf s p total :
  1 <= capacity s -> tree_invariant s ->
  _sum s = (Ok total, s) -> (0 <= p < total)%R ->
  exists i leaf,
    find_prefix_sum_idx p s = (Ok i, s) /\ i < capacity s /\
    priority_sum s !! (i + capacity s) = Some leaf /\ (0 < leaf)%R.
Proof.
  intros Hc Ht Hsum Hp. apply sum_at_inv in Hsum as [Hroot _].
  assert (forall n, 1 <= n < capacity s -> node_ok Rplus (priority_sum s) n)
    as Hn by (intros n Hn; apply (Ht n Hn)).
  pose proof (pow2_fuel (capacity s)) as Hfuel.
  destruct (find_loop_positive s Hn (capacity s) 1 p [] total)
    as (i & reads & l & E & Hi & Hl & Hlpos); [lia|lia|exact Hroot|exact Hp|].
  exists (i - capacity s), l.
  split; [apply (find_prefix_sum_idx_of_loop p s _ _ E)|].
  split; [lia|].
  replace (i - capacity s + capacity s) with i by lia. auto.
Qed.

Lemma find_prefix_sum_idx_positive_leaf_witness :
  let s := run_all [Push (Transition [0; 0; 0]%R 0 0 [0; 0; 0]%R false);
                    Push (Transition [0; 0; 0]%R 0 0 [0; 0; 0]%R false);
                    Push (Transition [0; 0; 0]%R 0 0 [0; 0; 0]%R false)]
                   (__init__ 3 1 3) in
  exists i leaf,
    find_prefix_sum_idx 0 s = (Ok i, s) /\ i < capacity s /\
    priority_sum s !! (i + capacity s) = Some leaf /\ (0 < leaf)%R.
Proof.
  intros s.
  assert (good s) as G.
  { apply run_all_good; [apply good_init|]. repeat constructor. }
  apply (find_prefix_sum_idx_positive_leaf s 0 (1 + 1 + 1)).
  - unfold s. norm. do 3 eval_push 1%R. norm_all. lia.
  - apply G.
  - unfold s. norm. do 3 eval_push 1%R. reflexivity.
  - lra.
Defined.





(** X15.  A buffer built with capacity [0] is full from the start, and every
    [push] and every [sample] on it raises IndexError and leaves it as it
    was. *)
Theorem capacity_zero_buffer a state_dim t batch_size beta random :
  let s := __init__ 0 a state_dim in
  is_full s = (Ok true, s) /\
  push t s = (Raise IndexError, s) /\
  sample batch_size beta random s = (Raise IndexError, s).
Proof.
  cbv zeta. split; [reflexivity|]. split.
  - apply push_raise_empty; [apply shape_init|reflexivity].
  - destruct batch_size; reflexivity.
Qed.



(** X17.  The three [while] loops end within their bounds on every object,
    well-formed or not: the upward walks of [_set_priority_min] and
    [_set_priority_sum] within [idx] turns and the descent of
    [find_prefix_sum_idx] within [capacity] turns, so that no method runs
    out of the iterations its model allots. *)
Theorem loops_end_within_bounds :
  (forall idx v, within_fuel (_set_priority_min idx v)) /\
  (forall idx v, within_fuel (_set_priority_sum idx v)) /\
  (forall p, within_fuel (find_prefix_sum_idx p)) /\
  (forall t, within_fuel (push t)) /\
  (forall batch_size beta random, within_fuel (sample batch_size beta random)) /\
  (forall indexes priorities,
     within_fuel (update_priorities indexes priorities)).
Proof.
  split; [exact wf_set_min|]. split; [exact wf_set_sum|].
  split; [exact wf_find_prefix_sum_idx|]. exact methods_within_fuel.
Qed.

(** ** The located slot grows with the target *)

Lemma Rsum_nonneg (l : list R) : Forall (fun v => (0 <= v)%R) l -> (0 <= Rsum l)%R.
Proof.
  induction 1 as [|x l Hx _ IH]; [unfold Rsum; cbn; lra|].
  rewrite Rsum_cons. lra.
Qed.

Lemma cum_monotone s i j :
  Forall (fun v => (0 <= v)%R) (priority_sum s) -> i <= j ->
  (cum s i <= cum s j)%R.
Proof.
  intros Hpos Hij. rewrite !cum_range_sum.
  replace j with (i + (j - i)) by lia. rewrite range_sum_split.
  enough (0 <= range_sum (priority_sum s) (capacity s + i) (j - i))%R by lra.
  unfold range_sum. apply Rsum_nonneg.
  apply Forall_take, Forall_drop, Hpos.
Qed.

Lemma find_prefix_sum_idx_in_range s p total :
  is_pow2 (capacity s) -> tree_invariant s ->
  priority_sum s !! 1 = Some total -> (0 <= p < total)%R ->
  exists i,
    find_prefix_sum_idx p s = (Ok i, s) /\ i < capacity s /\
    (cum s i <= p < cum s (i + 1))%R.
Proof.
  intros [d Hd] Hinv Hroot Hp.
  assert (forall n, 1 <= n < capacity s -> node_ok Rplus (priority_sum s) n)
    as Hs by (intros n Hn; apply (Hinv n Hn)).
  pose proof (pow2_pos d) as HP. pose proof (pow2_fuel d) as Hlin.
  destruct (find_loop_locates s Hs ltac:(lia) d (capacity s) 1 p [] total)
    as (i & reads & Ei & Bi & Si); try assumption; try lia.
  exists (i - capacity s). split; [|split].
  - apply (find_prefix_sum_idx_of_loop p s _ _ Ei).
  - lia.
  - rewrite !cum_range_sum. rewrite Nat.mul_1_l, <- Hd in Si. exact Si.
Qed.

(** X18.  On a buffer whose capacity is a power of two, whose tree invariant
    holds and whose sum tree has no negative entry, [find_prefix_sum_idx] is
    monotone on all of the reals: a larger target never locates an earlier
    slot. *)
Theorem find_prefix_sum_idx_monotone s p p' :
  is_pow2 (capacity s) -> tree_invariant s ->
  length (priority_sum s) = 2 * capacity s ->
  Forall (fun v => (0 <= v)%R) (priority_sum s) ->
  (p <= p')%R ->
  exists i i',
    find_prefix_sum_idx p s = (Ok i, s) /\
    find_prefix_sum_idx p' s = (Ok i', s) /\ i <= i'.
Proof.
  intros Hpow Ht Hlen Hpos Hpp.
  pose proof Hpow as [d Hd]. pose proof (pow2_pos d) as Hc.
  pose proof (pow2_fuel d) as Hfuel.
  assert (forall n, 1 <= n < capacity s -> node_ok Rplus (priority_sum s) n)
    as Hn by (intros n Hn; apply (Ht n Hn)).
  destruct (lookup_lt_is_Some_2 (priority_sum s) 1 ltac:(lia)) as [total Hroot].
  destruct (find_prefix_sum_idx_returns s p ltac:(lia) Hlen) as (i & Ei & Hi).
  destruct (find_prefix_sum_idx_returns s p' ltac:(lia) Hlen) as (i' & Ei' & Hi').
  exists i, i'. split; [exact Ei|]. split; [exact Ei'|].
  destruct (Rlt_dec p 0) as [Hneg|Hnn].
  - destruct (find_loop_leftmost s Hn Hpos d (capacity s) 1 p []) as (reads & E);
      [lia|lia|lia|exact Hneg|].
    rewrite (find_prefix_sum_idx_of_loop p s _ _ E) in Ei.
    injection Ei as <-. lia.
  - destruct (Rle_dec total p') as [Hhigh|Hlow].
    + destruct (find_loop_rightmost s Hn Hpos d (capacity s) 1 p' [] total)
        as (reads & E); [lia|lia|lia|exact Hroot|exact Hhigh|].
      rewrite (find_prefix_sum_idx_of_loop p' s _ _ E) in Ei'.
      injection Ei' as <-. lia.
    + destruct (find_prefix_sum_idx_in_range s p total Hpow Ht Hroot)
        as (j & Ej & _ & Bj); [lra|].
      destruct (find_prefix_sum_idx_in_range s p' total Hpow Ht Hroot)
        as (j' & Ej' & _ & Bj'); [lra|].
      assert (j = i) as -> by congruence.
      assert (j' = i') as -> by congruence.
      destruct (le_lt_dec i i') as [Hle|Hgt]; [exact Hle|].
      pose proof (cum_monotone s (i' + 1) i Hpos ltac:(lia)). lra.
Qed.

Lemma find_prefix_sum_idx_monotone_witness :
  let s := run_all [Push (Transition [0; 0; 0]%R 0 0 [0; 0; 0]%R false);
                    Push (Transition [1; 0; 0]%R 1 1 [1; 1; 0]%R true)]
                   (__init__ 2 1 3) in
  exists i i',
    find_prefix_sum_idx (1 / 2) s = (Ok i, s) /\
    find_prefix_sum_idx (3 / 2) s = (Ok i', s) /\ i <= i'.
Proof.
  intros s.
  pose proof (reachable_good s two_pushes_reachable) as G.
  apply (find_prefix_sum_idx_monotone s (1 / 2) (3 / 2)).
  - exists 1. unfold s. norm. do 2 eval_push 1%R. reflexivity.
  - apply G.
  - apply G.
  - apply G.
  - lra.
Defined.



(** ** When [update_priorities] raises within its contract *)





(** * The plain replay buffer *)

Lemma push_all_snoc xs x s :
  ReplayBuffer.push_all (xs ++ [x]) s
  = snd (ReplayBuffer.push x (ReplayBuffer.push_all xs s)).
Proof. unfold ReplayBuffer.push_all. rewrite fold_left_app. reflexivity. Qed.

(** [push] on an object whose list is no longer than the capacity and whose
    cursor is the place of the next write. *)
Lemma replay_push_eval x s :
  1 <= ReplayBuffer.capacity s ->
  length (ReplayBuffer.buffer s) <= ReplayBuffer.capacity s ->
  (if decide (length (ReplayBuffer.buffer s) < ReplayBuffer.capacity s)
   then ReplayBuffer.position s = length (ReplayBuffer.buffer s)
   else ReplayBuffer.position s < ReplayBuffer.capacity s) ->
  ReplayBuffer.push x s
  = (Ok PyNone,
     ReplayBuffer.Make (ReplayBuffer.capacity s)
       (<[ReplayBuffer.position s := Some x]>
          (if decide (length (ReplayBuffer.buffer s) < ReplayBuffer.capacity s)
           then ReplayBuffer.buffer s ++ [None] else ReplayBuffer.buffer s))
       ((ReplayBuffer.position s + 1) mod ReplayBuffer.capacity s)).
Proof.
  destruct s as [c b p]; cbn. intros Hc Hlen Hpos. unfold ReplayBuffer.push; cbn.
  destruct (decide (length b < c)) as [Hlt|Hge]; cbn.
  - rewrite setitem_ok by (rewrite length_app; cbn; lia).
    rewrite py_mod_ok by lia. reflexivity.
  - rewrite setitem_ok by lia. rewrite py_mod_ok by lia. reflexivity.
Qed.

Lemma replay_pushes_state c :
  1 <= c -> forall xs,
  let s := ReplayBuffer.push_all xs (ReplayBuffer.__init__ c) in
  ReplayBuffer.capacity s = c /\
  length (ReplayBuffer.buffer s) = Nat.min c (length xs) /\
  ReplayBuffer.position s = length xs mod c /\
  forall j, j < length xs -> length xs <= j + c ->
    ReplayBuffer.buffer s !! (j mod c) = Some (xs !! j).
Proof.
  intros Hc xs. induction xs as [|x xs IH] using rev_ind; cbv zeta.
  - cbn. rewrite Nat.Div0.mod_0_l. repeat split; intros; lia.
  - rewrite push_all_snoc.
    set (s := ReplayBuffer.push_all xs (ReplayBuffer.__init__ c)) in *.
    cbv zeta in IH. destruct IH as (Ecap & Elen & Epos & Erows).
    clearbody s.
    pose proof (Nat.mod_upper_bound (length xs) c ltac:(lia)) as Hmod.
    rewrite replay_push_eval.
    2:{ lia. }
    2:{ lia. }
    2:{ destruct (decide _) as [Hlt|Hge]; [|lia].
        rewrite Epos. rewrite Nat.mod_small; lia. }
    cbn [snd ReplayBuffer.capacity ReplayBuffer.buffer ReplayBuffer.position].
    rewrite length_app; cbn [length].
    split; [exact Ecap|]. split; [|split].
    + rewrite length_insert.
      destruct (decide _) as [Hlt|Hge]; [rewrite length_app; cbn [length]|]; lia.
    + rewrite Ecap, Epos. apply Nat.Div0.add_mod_idemp_l.
    + intros j Hj Hlast. rewrite Epos.
      destruct (decide (j = length xs)) as [->|Hne].
      * rewrite list_lookup_insert_eq.
        -- rewrite lookup_app_r by lia. rewrite Nat.sub_diag. reflexivity.
        -- destruct (decide _) as [Hlt|Hge]; [rewrite length_app; cbn [length]|];
             [rewrite Nat.mod_small; lia|lia].
      * rewrite list_lookup_insert_ne
          by (apply not_eq_sym, mod_distinct; lia).
        specialize (Erows j ltac:(lia) ltac:(lia)).
        rewrite (lookup_app_l xs) by lia.
        destruct (decide _) as [Hlt|Hge]; [|exact Erows].
        apply lookup_app_l_Some. exact Erows.
Qed.

(** ** Sampling *)

Lemma omap_lookup_drawn {A : Type} (l : list A) (picks : list nat) :
  Forall (fun i => i < length l) picks ->
  exists vs, omap (fun i => l !! i) picks = vs /\
             Forall2 (fun i v => l !! i = Some v) picks vs.
Proof.
  induction 1 as [|i picks Hi _ (vs & E & Hall)]; cbn.
  - exists []. split; [reflexivity|constructor].
  - destruct (lookup_lt_is_Some_2 l i Hi) as [v Hv].
    exists (v :: vs). rewrite Hv, E. split; [reflexivity|]. constructor; assumption.
Qed.

Lemma omap_lookup_seq n (picks : list nat) :
  Forall (fun i => i < n) picks -> omap (fun i => seq 0 n !! i) picks = picks.
Proof.
  induction 1 as [|i picks Hi _ IH]; cbn; [reflexivity|].
  rewrite lookup_seq_lt by assumption. cbn. rewrite IH. reflexivity.
Qed.

Lemma getitems_Forall2 {A : Type} (l : list A) (idxs : list nat) vs :
  Forall2 (fun i v => l !! i = Some v) idxs vs -> getitems l idxs = Ok vs.
Proof.
  induction 1 as [|i v idxs vs Hv _ IH]; cbn; [reflexivity|].
  rewrite (getitem_ok _ _ _ Hv), IH. reflexivity.
Qed.

Lemma all_some_Forall2 {A : Type} (l : list (option A)) xs :
  Forall2 (fun o x => o = Some x) l xs -> all_some l = Some xs.
Proof.
  induction 1 as [|o x l xs -> _ IH]; cbn; [reflexivity|].
  rewrite IH. reflexivity.
Qed.

Lemma np_stack_same_width d (rows : list (list R)) :
  rows <> [] -> Forall (fun r => length r = d) rows -> np_stack rows = Returns rows.
Proof.
  intros Hne Hall. destruct rows as [|r rest]; [contradiction|].
  apply Forall_cons in Hall as [Hr Hrest]. clear Hne. cbn.
  assert (forallb (fun x => length x =? length r) rest = true) as ->;
    [|reflexivity].
  induction Hrest as [|x rest Hx _ IH]; cbn; [reflexivity|].
  rewrite IH, Hx, Hr, Nat.eqb_refl. reflexivity.
Qed.

Lemma row_of_maps (ts : list transition) i :
  row (Columns (map t_obs ts) (map t_action ts) (map t_reward ts)
               (map t_next_obs ts) (map t_done ts)) i = ts !! i.
Proof.
  unfold row; cbn. rewrite !list_lookup_fmap.
  destruct (ts !! i) as [[o a r n e]|]; reflexivity.
Qed.

(** A batch of stored transitions whose observations have one width and
    whose next observations have one width stacks to its columns. *)
Lemma stack_batch_ok d d' (batch : list (option transition)) ts :
  Forall2 (fun o x => o = Some x) batch ts -> ts <> [] ->
  Forall (fun x => length (t_obs x) = d /\ length (t_next_obs x) = d') ts ->
  stack_batch batch
  = Returns (Columns (map t_obs ts) (map t_action ts) (map t_reward ts)
                     (map t_next_obs ts) (map t_done ts)).
Proof.
  intros Hb Hne Hw. unfold stack_batch. rewrite (all_some_Forall2 _ _ Hb).
  destruct ts as [|x ts]; [contradiction|].
  rewrite (np_stack_same_width d), (np_stack_same_width d'); try discriminate.
  - reflexivity.
  - apply Forall_fmap. eapply Forall_impl; [exact Hw|]. intros y [_ H]. exact H.
  - apply Forall_fmap. eapply Forall_impl; [exact Hw|]. intros y [H _]. exact H.
Qed.

(** X21.  Pushing the transitions [xs] into a fresh [ReplayBuffer] of
    capacity [c >= 1]: [len()] is [min(c, n)] and the cursor [n mod c], [n]
    being the number of pushes; each of the last [c] pushed transitions is
    at index [j mod c], [j] being its ordinal; no [None] placeholder is left
    in the list; and a further [push] returns. *)
Theorem replay_buffer_ring c xs x :
  1 <= c ->
  let s := ReplayBuffer.push_all xs (ReplayBuffer.__init__ c) in
  ReplayBuffer.__len__ s = Nat.min c (length xs) /\
  ReplayBuffer.position s = length xs mod c /\
  (forall j, j < length xs -> length xs <= j + c ->
     ReplayBuffer.buffer s !! (j mod c) = Some (xs !! j)) /\
  Forall (fun o => o <> None) (ReplayBuffer.buffer s) /\
  fst (ReplayBuffer.push x s) = Ok PyNone.
Proof.
  intros Hc s.
  destruct (replay_pushes_state c Hc xs) as (Ecap & Elen & Epos & Erows).
  fold s in Ecap, Elen, Epos, Erows. clearbody s.
  pose proof (Nat.mod_upper_bound (length xs) c ltac:(lia)) as Hmod.
  split; [exact Elen|]. split; [exact Epos|]. split; [exact Erows|]. split.
  - apply Forall_lookup. intros i o Hi.
    pose proof (lookup_lt_Some _ _ _ Hi) as Hlt. rewrite Elen in Hlt.
    destruct (slot_of_last c (length xs - c) i Hc ltac:(lia)) as (j & Hj & <-).
    destruct (le_lt_dec c (length xs)) as [Hfull|Hpart].
    + rewrite Erows in Hi by lia. injection Hi as <-.
      destruct (lookup_lt_is_Some_2 xs j ltac:(lia)) as [y ->]. discriminate.
    + assert (j mod c < length xs) as Hjm by lia.
      rewrite <- (Nat.mod_small (j mod c) c) in Hi by lia.
      rewrite Erows in Hi by lia. injection Hi as <-.
      destruct (lookup_lt_is_Some_2 xs (j mod c) Hjm) as [y ->]. discriminate.
  - rewrite replay_push_eval; [reflexivity|lia|lia|].
    destruct (decide _) as [Hlt|Hge]; [|lia].
    rewrite Epos. rewrite Nat.mod_small; lia.
Qed.

Lemma replay_buffer_ring_witness :
  let xs := [Transition [0; 0; 0]%R 0 0 [0; 0; 0]%R false;
             Transition [1; 0; 0]%R 1 1 [1; 1; 0]%R false;
             Transition [1; 1; 0]%R 2 2 [1; 1; 1]%R true] in
  let x := Transition [1; 2; 3]%R 2 3 [4; 5; 6]%R true in
  let s := ReplayBuffer.push_all xs (ReplayBuffer.__init__ 2) in
  ReplayBuffer.__len__ s = Nat.min 2 (length xs) /\
  ReplayBuffer.position s = length xs mod 2 /\
  (forall j, j < length xs -> length xs <= j + 2 ->
     ReplayBuffer.buffer s !! (j mod 2) = Some (xs !! j)) /\
  Forall (fun o => o <> None) (ReplayBuffer.buffer s) /\
  fst (ReplayBuffer.push x s) = Ok PyNone.
Proof.
  intros xs x. apply (replay_buffer_ring 2 xs x). lia.
Defined.

(** X22.  A [ReplayBuffer] built with capacity [0] never stores anything:
    every [push] raises IndexError and leaves the list empty and the cursor
    at [0]. *)
Theorem replay_buffer_capacity_zero xs x :
  let s := ReplayBuffer.push_all xs (ReplayBuffer.__init__ 0) in
  s = ReplayBuffer.__init__ 0 /\
  ReplayBuffer.push x s = (Raise IndexError, s).
Proof.
  cbv zeta.
  assert (ReplayBuffer.push_all xs (ReplayBuffer.__init__ 0)
          = ReplayBuffer.__init__ 0) as ->.
  { induction xs as [|y xs IH] using rev_ind; [reflexivity|].
    rewrite push_all_snoc, IH. reflexivity. }
  split; reflexivity.
Qed.



(** X24.  [sample] and [sample_with_indices] of the [ReplayBuffer] raise
    ValueError when the batch size exceeds the number of stored transitions,
    and also when it is [0]: the unpacking of the empty [zip] fails, so an
    empty batch is never returned. *)
Theorem replay_sample_value_error picks batch_size s :
  batch_size = 0 \/ ReplayBuffer.__len__ s < batch_size ->
  ReplayBuffer.sample picks batch_size s = Fails ValueError /\
  ReplayBuffer.sample_with_indices picks batch_size s = Fails ValueError.
Proof.
  unfold ReplayBuffer.__len__, ReplayBuffer.sample,
    ReplayBuffer.sample_with_indices, random_sample.
  rewrite length_seq. intros [->|Hlt].
  - rewrite !decide_True by lia. rewrite take_0. split; reflexivity.
  - rewrite !decide_False by lia. split; reflexivity.
Qed.

Lemma replay_sample_value_error_witness :
  let s := ReplayBuffer.push_all
             [Transition [0; 0; 0]%R 0 0 [0; 0; 0]%R false]
             (ReplayBuffer.__init__ 2) in
  ReplayBuffer.sample [0] 0 s = Fails ValueError /\
  ReplayBuffer.sample_with_indices [0] 0 s = Fails ValueError.
Proof.
  intros s. apply (replay_sample_value_error [0] 0 s). left. reflexivity.
Defined.

Lemma stored_batch d d' (l : list (option transition)) picks batch :
  Forall (fun o => exists x, o = Some x /\ length (t_obs x) = d /\
                             length (t_next_obs x) = d') l ->
  Forall2 (fun p o => l !! p = Some o) picks batch ->
  exists ts, Forall2 (fun o x => o = Some x) batch ts /\
             Forall (fun x => length (t_obs x) = d /\
                              length (t_next_obs x) = d') ts.
Proof.
  intros Hall Hbatch. rewrite Forall_lookup in Hall.
  induction Hbatch as [|p o picks' batch' Ho _ (ts & Hts & Hw)].
  - exists []. split; constructor.
  - destruct (Hall _ _ Ho) as (x & -> & Hx).
    exists (x :: ts). split; constructor; auto.
Qed.

(** X25.  On a [ReplayBuffer] that holds no [None] and whose observations
    have one width and next observations one width, for a batch size between
    [1] and [len()] and the positions [picks] drawn by [random.sample]:
    [sample] returns five columns whose [i]-th row is the transition stored
    at the [i]-th drawn position, and [sample_with_indices] returns the
    state column of the same batch together with the drawn positions. *)
Theorem replay_sample_returns_stored picks batch_size s d d' :
  1 <= batch_size -> batch_size <= ReplayBuffer.__len__ s ->
  drawn (ReplayBuffer.__len__ s) batch_size picks ->
  Forall (fun o => exists x, o = Some x /\ length (t_obs x) = d /\
                             length (t_next_obs x) = d')
         (ReplayBuffer.buffer s) ->
  exists cols,
    ReplayBuffer.sample picks batch_size s = Returns cols /\
    ReplayBuffer.sample_with_indices picks batch_size s
    = Returns (data_obs cols, picks) /\
    forall i p, picks !! i = Some p ->
      exists x, ReplayBuffer.buffer s !! p = Some (Some x) /\
                row cols i = Some x.
Proof.
  unfold ReplayBuffer.__len__. intros Hk Hle (Hlen & _ & Hin) Hall.
  destruct (omap_lookup_drawn (ReplayBuffer.buffer s) picks Hin)
    as (batch & Ebatch & Hbatch).
  destruct (stored_batch d d' _ picks batch Hall Hbatch) as (ts & Hts & Hw).
  assert (ts <> []) as Hne.
  { intros ->. apply Forall2_length in Hts, Hbatch. cbn in Hts. lia. }
  exists (Columns (map t_obs ts) (map t_action ts) (map t_reward ts)
                  (map t_next_obs ts) (map t_done ts)).
  unfold ReplayBuffer.sample, ReplayBuffer.sample_with_indices, random_sample.
  rewrite length_seq, !decide_True by lia.
  rewrite take_ge by lia. rewrite Ebatch, omap_lookup_seq by assumption.
  rewrite (getitems_Forall2 _ _ _ Hbatch).
  rewrite (stack_batch_ok d d' batch ts Hts Hne Hw).
  split; [reflexivity|]. split; [reflexivity|].
  intros i p Hp.
  destruct (Forall2_lookup_l _ _ _ _ _ Hbatch Hp) as (o & Ho & Hpo).
  destruct (Forall2_lookup_l _ _ _ _ _ Hts Ho) as (x & Hx & ->).
  exists x. split; [exact Hpo|]. rewrite row_of_maps. exact Hx.
Qed.

Lemma replay_sample_returns_stored_witness :
  let s := ReplayBuffer.push_all
             [Transition [0; 0; 0]%R 0 0 [0; 0; 0]%R false;
              Transition [1; 0; 0]%R 1 1 [1; 1; 0]%R false;
              Transition [1; 1; 0]%R 2 2 [1; 1; 1]%R true]
             (ReplayBuffer.__init__ 4) in
  exists cols,
    ReplayBuffer.sample [2; 0] 2 s = Returns cols /\
    ReplayBuffer.sample_with_indices [2; 0] 2 s
    = Returns (data_obs cols, [2; 0]) /\
    forall i p, [2; 0] !! i = Some p ->
      exists x, ReplayBuffer.buffer s !! p = Some (Some x) /\
                row cols i = Some x.
Proof.
  intros s. apply (replay_sample_returns_stored [2; 0] 2 s 3 3).
  - lia.
  - unfold s. norm_all. lia.
  - split; [reflexivity|]. split.
    + apply NoDup_cons. split; [|apply NoDup_singleton].
      intros H. apply list_elem_of_singleton in H. discriminate.
    + unfold s. norm_all. repeat constructor.
  - unfold s. norm_all.
    repeat constructor; eexists; (split; [reflexivity|]); split; reflexivity.
Defined.

(** * The outcome matrices *)

Lemma traverse_ok {A B : Type} (f : A -> outcome B) (l : list A) :
  Forall (fun a => exists b, f a = Returns b) l ->
  exists bs, traverse f l = Returns bs /\
             Forall2 (fun a b => f a = Returns b) l bs.
Proof.
  induction 1 as [|a l [b Hb] _ (bs & E & Hall)]; cbn.
  - exists []. split; [reflexivity|constructor].
  - exists (b :: bs). rewrite Hb, E. split; [reflexivity|]. constructor; assumption.
Qed.

Lemma traverse_fails {A B : Type} (f : A -> outcome B) (l : list A) e :
  Forall (fun a => (exists b, f a = Returns b) \/ f a = Fails e) l ->
  Exists (fun a => f a = Fails e) l ->
  traverse f l = Fails e.
Proof.
  intros Hall Hex. induction Hall as [|a l Ha Hall IH]; [inversion Hex|].
  cbn. destruct Ha as [[b Hb]|Hf]; [|rewrite Hf; reflexivity].
  rewrite Hb. apply Exists_cons in Hex as [Hex|Hex]; [congruence|].
  rewrite (IH Hex). reflexivity.
Qed.

Lemma dict_get_cases {V : Type} (d : list (R * V)) k :
  (exists v, dict_get d k = Returns v /\ k ∈ d.*1) \/
  (dict_get d k = Fails KeyError /\ k ∉ d.*1).
Proof.
  induction d as [|[k' v] d IH]; cbn.
  - right. split; [reflexivity|]. apply not_elem_of_nil.
  - destruct (Req_dec_T k k') as [->|Hne].
    + left. exists v. split; [reflexivity|]. apply elem_of_cons. auto.
    + destruct IH as [(w & Hw & Hin)|[Hf Hout]].
      * left. exists w. split; [exact Hw|]. apply elem_of_cons. auto.
      * right. split; [exact Hf|]. intros Hin.
        apply elem_of_cons in Hin as [E|Hin]; [contradiction|].
        apply Hout, Hin.
Qed.

Lemma rows_of_lookup cols : forall rows a r,
  r < rows -> rows_of rows cols a !! r = Some (take cols (drop (r * cols) a)).
Proof.
  intros rows. induction rows as [|rows IH]; intros a r Hr; [lia|].
  destruct r as [|r]; cbn [rows_of].
  - cbn. rewrite drop_0. reflexivity.
  - change ((take cols a :: rows_of rows cols (drop cols a)) !! S r)
      with (rows_of rows cols (drop cols a) !! r).
    rewrite IH by lia. rewrite drop_drop. reflexivity.
Qed.

Lemma rows_of_length cols : forall rows a, length (rows_of rows cols a) = rows.
Proof.
  intros rows. induction rows as [|rows IH]; intros a; cbn; [reflexivity|].
  rewrite IH. reflexivity.
Qed.

Lemma rows_of_flat cols : forall rows a,
  rows * cols = length a -> concat (rows_of rows cols a) = a.
Proof.
  intros rows. induction rows as [|rows IH]; intros a Hlen; cbn.
  - destruct a; [reflexivity|cbn in Hlen; lia].
  - rewrite IH; [apply take_drop|]. rewrite length_drop. lia.
Qed.

Lemma rows_of_widths cols : forall rows a,
  rows * cols = length a ->
  Forall (fun row => length row = cols) (rows_of rows cols a).
Proof.
  intros rows. induction rows as [|rows IH]; intros a Hlen; cbn [rows_of].
  - constructor.
  - constructor.
    + rewrite length_take. lia.
    + apply IH. rewrite length_drop. lia.
Qed.

(** A comprehension over a function that returns on the members of [P] and
    raises [e] on the others returns on the lists of members of [P] and
    raises [e] on the others. *)
Lemma traverse_cases {A B : Type} (f : A -> outcome B) e (P : A -> Prop) l :
  (forall a, (exists b, f a = Returns b /\ P a) \/ (f a = Fails e /\ ~ P a)) ->
  (exists bs, traverse f l = Returns bs /\ Forall P l /\
              Forall2 (fun a b => f a = Returns b) l bs) \/
  (traverse f l = Fails e /\ ~ Forall P l).
Proof.
  intros Hf. induction l as [|a l IH]; cbn.
  - left. exists []. split; [reflexivity|]. split; constructor.
  - destruct (Hf a) as [(b & Hb & Pa)|[Hb Na]]; rewrite Hb.
    + destruct IH as [(bs & E & Hall & H2)|[E Hn]]; rewrite E.
      * left. exists (b :: bs). split; [reflexivity|].
        split; constructor; assumption.
      * right. split; [reflexivity|]. intros H. apply Hn.
        apply Forall_cons in H as [_ H]. exact H.
    + right. split; [reflexivity|]. intros H. apply Na.
      apply Forall_cons in H as [H _]. exact H.
Qed.

Lemma dict_get_member {V : Type} (d : list (R * V)) k :
  (exists v, dict_get d k = Returns v /\ k ∈ d.*1) \/
  (dict_get d k = Fails KeyError /\ ~ k ∈ d.*1).
Proof. apply dict_get_cases. Qed.

Lemma Forall2_Forall2_concat {A B : Type} (P : A -> B -> Prop) ls ks :
  Forall2 (Forall2 P) ls ks -> Forall2 P (concat ls) (concat ks).
Proof.
  induction 1 as [|l k ls ks H _ IH]; cbn; [constructor|].
  apply Forall2_app; assumption.
Qed.

Lemma traverse_returns_Forall2 {A B : Type} (f : A -> outcome B) l bs :
  traverse f l = Returns bs -> Forall2 (fun a b => f a = Returns b) l bs.
Proof.
  revert bs. induction l as [|a l IH]; cbn; intros bs H.
  - injection H as <-. constructor.
  - destruct (f a) as [b|e] eqn:Hb; [|discriminate].
    destruct (traverse f l) as [bs'|e]; [|discriminate].
    injection H as <-. constructor; [exact Hb|]. apply IH. reflexivity.
Qed.

Lemma Forall2_widths {A B : Type} (P : A -> B -> Prop) n ls ks :
  Forall2 (Forall2 P) ls ks ->
  Forall (fun row => length row = n) ls ->
  Forall (fun row => length row = n) ks.
Proof.
  induction 1 as [|l k ls ks H _ IH]; intros Hw; [constructor|].
  apply Forall_cons in Hw as [Hw1 Hw2]. constructor; [|apply IH, Hw2].
  apply Forall2_length in H. lia.
Qed.

(** The three ways the common lines end. *)
Lemma colour_figure_cases cmap labels n results :
  (forall k, k ∈ cmap.*1 -> k ∈ labels.*1) ->
  (n * n <> length results ->
   colour_figure cmap labels n results = Fails ValueError) /\
  (n * n = length results -> ~ Forall (fun x => x ∈ cmap.*1) results ->
   colour_figure cmap labels n results = Fails KeyError) /\
  (n * n = length results -> Forall (fun x => x ∈ cmap.*1) results ->
   exists fig,
     colour_figure cmap labels n results = Returns fig /\
     length (arrayShow fig) = n /\
     Forall (fun row => length row = n) (arrayShow fig) /\
     Forall2 (fun x col => dict_get cmap x = Returns col)
             results (concat (arrayShow fig)) /\
     Forall2 (fun kc p => dict_get cmap kc.1 = Returns p.1 /\
                          dict_get labels kc.1 = Returns p.2)
             cmap (patches fig)).
Proof.
  intros Hlabels. unfold colour_figure, reshape.
  split; [intros Hn; rewrite decide_False by assumption; reflexivity|].
  assert (n * n = length results ->
          (exists img,
             traverse (traverse (dict_get cmap)) (rows_of n n results)
             = Returns img /\ Forall (fun x => x ∈ cmap.*1) results /\
             Forall2 (Forall2 (fun x col => dict_get cmap x = Returns col))
                     (rows_of n n results) img) \/
          (traverse (traverse (dict_get cmap)) (rows_of n n results)
           = Fails KeyError /\ ~ Forall (fun x => x ∈ cmap.*1) results))
    as Himg.
  { intros Hn.
    destruct (traverse_cases (traverse (dict_get cmap)) KeyError
                (Forall (fun x => x ∈ cmap.*1)) (rows_of n n results))
      as [(img & E & Hall & H2)|[E Hnot]].
    - intros row.
      destruct (traverse_cases (dict_get cmap) KeyError
                  (fun x => x ∈ cmap.*1) row (dict_get_member cmap))
        as [(bs & Eb & Hb & _)|[Eb Hb]]; eauto.
    - left. exists img. split; [exact E|].
      rewrite <- (rows_of_flat n n results Hn) at 1.
      split; [apply Forall_concat, Hall|].
      eapply Forall2_impl; [exact H2|]. intros row imgrow Hrow.
      apply traverse_returns_Forall2, Hrow.
    - right. split; [exact E|]. intros H. apply Hnot.
      apply Forall_concat. rewrite (rows_of_flat n n results Hn). exact H. }
  split; intros Hn Hres; rewrite decide_True by assumption;
    destruct (Himg Hn) as [(img & E & Hall & H2)|[E Hnot]]; rewrite E;
    try contradiction; [reflexivity|].
  destruct (traverse_ok
              (fun i => match dict_get cmap i with
                        | Fails e => Fails e
                        | Returns c =>
                            match dict_get labels i with
                            | Fails e => Fails e
                            | Returns l => Returns (c, l)
                            end
                        end) cmap.*1) as (ps & Eps & Hps).
  { apply Forall_forall. intros k Hk.
    destruct (dict_get_member cmap k) as [(c & Ec & _)|[_ N]]; [|contradiction].
    destruct (dict_get_member labels k) as [(l & El & _)|[_ N]];
      [|exfalso; apply N, Hlabels, Hk].
    exists (c, l). rewrite Ec, El. reflexivity. }
  rewrite Eps. exists (Figure img ps). split; [reflexivity|]. cbn [arrayShow patches].
  pose proof (Forall2_length _ _ _ H2) as Hlen. rewrite rows_of_length in Hlen.
  split; [lia|]. split; [|split].
  - apply (Forall2_widths _ n _ _ H2), rows_of_widths, Hn.
  - rewrite <- (rows_of_flat n n results Hn) at 1.
    apply Forall2_Forall2_concat, H2.
  - apply Forall2_fmap_l in Hps. eapply Forall2_impl; [exact Hps|].
    intros [k c] [c' l] H. cbn in H |- *.
    destruct (dict_get cmap k) as [c''|]; [|discriminate].
    destruct (dict_get labels k) as [l'|]; [|discriminate].
    injection H as <- <-. auto.
Qed.

Lemma end_state_labels_cover k :
  k ∈ end_state_cmap.*1 -> k ∈ end_state_labels.*1.
Proof. intros H. exact H. Qed.











(** [plot_end_state_matrix] on an array of one cell. *)
Lemma end_state_single_cell x :
  let y := if Req_dec_T x 0 then 4%R else x in
  (y ∈ end_state_cmap.*1 ->
   exists col ps, dict_get end_state_cmap y = Returns col /\
     fst (plot_end_state_matrix [x]) = Returns (Figure [[col]] ps)) /\
  (~ y ∈ end_state_cmap.*1 ->
   fst (plot_end_state_matrix [x]) = Fails KeyError).
Proof.
  cbv zeta. unfold plot_end_state_matrix. cbn [fst map length].
  change (Nat.sqrt 1) with 1.
  set (y := if Req_dec_T x 0 then 4%R else x).
  destruct (colour_figure_cases end_state_cmap end_state_labels 1 [y]
              end_state_labels_cover) as (_ & Hk & Hr).
  split.
  - intros Hy. destruct Hr as ([img ps] & E & H1 & H2 & H3 & _);
      [reflexivity|constructor; [exact Hy|constructor]|].
    cbn [arrayShow] in H1, H2, H3.
    destruct img as [|row [|row' img]]; try discriminate.
    apply Forall_cons in H2 as [H2 _].
    destruct row as [|col [|col' row]]; try discriminate.
    cbn in H3. apply Forall2_cons in H3 as [H3 _].
    exists col, ps. split; [exact H3|exact E].
  - intros Hy. apply Hk; [reflexivity|]. intros H.
    apply Forall_cons in H as [H _]. contradiction.
Qed.

(** X28.  The codes of the [Basins] enumeration under
    [plot_end_state_matrix], one cell at a time: a cell of code [S_PB] or
    [OUT_OF_TIME] raises KeyError, a cell of any other code is drawn, and a
    cell of code [OUT_PB] is drawn exactly as one of code [Y_SF]. *)
Theorem end_state_colours_of_basins b :
  let cell := fun b => fst (plot_end_state_matrix [IZR (Basins.value b)]) in
  (b = Basins.S_PB \/ b = Basins.OUT_OF_TIME -> cell b = Fails KeyError) /\
  (b <> Basins.S_PB -> b <> Basins.OUT_OF_TIME ->
   exists col ps, cell b = Returns (Figure [[col]] ps)) /\
  cell Basins.OUT_PB = cell Basins.Y_SF.
Proof.
  cbv zeta. split; [|split].
  - intros Hb. apply end_state_single_cell.
    destruct Hb as [-> | ->]; cbn [Basins.value];
      destruct (Req_dec_T _ 0) as [E|_]; try (exfalso; lra);
      cbn; rewrite !elem_of_cons, elem_of_nil; lra.
  - intros H1 H2.
    destruct (end_state_single_cell (IZR (Basins.value b))) as (Hr & _).
    cbv zeta in Hr. destruct Hr as (col & ps & _ & E); [|eauto].
    destruct b; try contradiction; cbn [Basins.value];
      destruct (Req_dec_T _ 0) as [E|E]; try (exfalso; lra);
      cbn; rewrite !elem_of_cons; auto 10.
  - unfold plot_end_state_matrix. cbn [fst map length Basins.value].
    destruct (Req_dec_T 0 0) as [_|N]; [|exfalso; apply N; reflexivity].
    destruct (Req_dec_T 4 0) as [E|_]; [exfalso; lra|]. reflexivity.
Qed.

Lemma end_state_colours_of_basins_witness :
  fst (plot_end_state_matrix [IZR (Basins.value Basins.S_PB)])
  = Fails KeyError /\
  exists col ps,
    fst (plot_end_state_matrix [IZR (Basins.value Basins.A_PB)])
    = Returns (Figure [[col]] ps).
Proof.
  split.
  - apply (end_state_colours_of_basins Basins.S_PB). left. reflexivity.
  - apply (end_state_colours_of_basins Basins.A_PB); discriminate.
Defined.


(** * The samples of [critical_states_tests] *)








